(** * Motion poster generator

    A shallow embedding of the motion-synthesis core of
    [scripts/motion-demo.py] (class [MotionPosterGenerator]): depth
    normalisation, the per-frame motion parameters, the two warps, the
    frame loop and the [generate] pipeline around them.  The copy under
    [docs/POC/motion-posters/] has the same [estimate_depth],
    [generate_parallax_frames], [_apply_parallax], [_apply_zoom] and
    [generate]; it differs in model selection, input downscaling and the
    encoder.

    Numbers.  Python floats and numpy float arrays are modelled by the real
    numbers [R]: [math.sin], [math.cos] and [math.pi] are [sin], [cos] and
    [PI], [int(x)] is truncation towards zero, [//] is [Z.div].  Rounding
    error, overflow, infinities and NaN are outside that model.  The one
    place where an IEEE exceptional value decides the behaviour, the quotient
    of [estimate_depth], is therefore also instantiated with binary32
    arithmetic ([SpecFloat]), which is what numpy executes there.

    Arrays.  A numpy array of shape (H, W) is a list of H rows of length W
    (so an array without rows has no columns either); an RGB image has one
    [rgb] record per pixel.  Array objects live in a heap of buffers and are
    passed around by handle, so that aliasing and mutation can be stated.

    OpenCV and numpy primitives ([cv2.remap], [cv2.resize],
    [cv2.copyMakeBorder], broadcasting, [np.clip], slicing) are not code of
    this repository; they are modelled from their documented contracts. *)

From Stdlib Require Import Reals Lra Lia ZArith.
From Stdlib Require Import SpecFloat Ascii.
From stdpp Require Import gmap strings list.

(** ** Exceptions *)

Inductive exn :=
| ValueError   (* numpy: empty reduction, operands not broadcastable *)
| IndexError   (* list index out of range *)
| TypeError    (* an array of the wrong kind *)
| CvError      (* cv2.error: a failed OpenCV assertion *)
| SystemExit.  (* sys.exit(1) *)

Inductive result (A : Type) :=
| Ok (a : A)
| Raise (e : exn).
Arguments Ok {A} a.
Arguments Raise {A} e.

(** ** Two-dimensional arrays *)

Abbreviation grid A := (list (list A)).

Definition nrows {A} (g : grid A) : nat := length g.

Definition ncols {A} (g : grid A) : nat :=
  match g with
  | [] => 0
  | r :: _ => length r
  end.

Definition shape {A} (g : grid A) : nat * nat := (nrows g, ncols g).

(** The array whose entry (i, j) is [f i j]. *)
Definition tabulate {A} (h w : nat) (f : nat → nat → A) : grid A :=
  (λ i, f i <$> seq 0 w) <$> seq 0 h.

Definition at2 {A} `{Inhabited A} (g : grid A) (i j : nat) : A :=
  (g !!! i) !!! j.

(** All rows present and of the same length. *)
Definition rect {A} (h w : nat) (g : grid A) : Prop :=
  length g = h ∧ Forall (λ r, length r = w) g.

(** Every entry satisfies [P]. *)
Definition all_entries {A} (P : A → Prop) (g : grid A) : Prop :=
  Forall (Forall P) g.

(** ** Depth normalisation ([estimate_depth], lines 104-107)

    The arithmetic is a parameter: the same source line is read once over
    the reals and once over binary32. *)

Class Arith (F : Type) := {
  f_sub : F → F → F;
  f_div : F → F → F;
  f_min : F → F → F;   (* np.minimum *)
  f_max : F → F → F    (* np.maximum *)
}.

(** [a.min()] and [a.max()]: numpy raises ValueError on an empty array. *)
Definition array_min {F} `{Arith F} (a : grid F) : result F :=
  match concat a with
  | [] => Raise ValueError
  | x :: xs => Ok (foldl f_min x xs)
  end.

Definition array_max {F} `{Arith F} (a : grid F) : result F :=
  match concat a with
  | [] => Raise ValueError
  | x :: xs => Ok (foldl f_max x xs)
  end.

(** [depth_map = (depth_map - depth_map.min()) / (depth_map.max() - depth_map.min())] *)
Definition normalize_depth {F} `{Arith F} (depth_map : grid F) : result (grid F) :=
  match array_min depth_map, array_max depth_map with
  | Ok lo, Ok hi =>
      Ok (map (map (λ v, f_div (f_sub v lo) (f_sub hi lo))) depth_map)
  | Raise e, _ => Raise e
  | _, Raise e => Raise e
  end.

(** Exact arithmetic.  In [R] a quotient by zero is a total but meaningless
    value, so this instance says nothing about a field with [hi = lo]. *)
#[export] Instance real_arith : Arith R := {
  f_sub := Rminus;
  f_div := Rdiv;
  f_min := Rmin;
  f_max := Rmax
}.

(** IEEE 754 binary32, the dtype of the MiDaS prediction: 24 bits of
    precision, maximal exponent 128.  [np.minimum] and [np.maximum]
    propagate NaN. *)
Definition float32 := spec_float.

Definition f32_sub : float32 → float32 → float32 := SFsub 24 128.
Definition f32_div : float32 → float32 → float32 := SFdiv 24 128.

Definition f32_minimum (x y : float32) : float32 :=
  match SFcompare x y with
  | Some Gt => y
  | Some _ => x
  | None => S754_nan
  end.

Definition f32_maximum (x y : float32) : float32 :=
  match SFcompare x y with
  | Some Lt => y
  | Some _ => x
  | None => S754_nan
  end.

#[export] Instance float32_arith : Arith float32 := {
  f_sub := f32_sub;
  f_div := f32_div;
  f_min := f32_minimum;
  f_max := f32_maximum
}.

(** A constant array, as [np.full((h, w), c)]. *)
Definition uniform {A} (h w : nat) (c : A) : grid A := replicate h (replicate w c).

(** 0.5 as a binary32 number: 2^23 * 2^-24. *)
Definition half32 : float32 := S754_finite false 8388608 (-24).

(** ** Motion parameters (loop body of [generate_parallax_frames], lines 131-153) *)

Inductive motion :=
| Offsets (offset_x offset_y : R)   (* field warp: 'parallax' and 'sway' *)
| ZoomFactor (zoom_factor : R)      (* scalar warp: 'zoom' *)
| Still.                            (* any other effect string: plain copy *)

(** [t = i / num_frames; phase = t * 2 * math.pi] *)
Definition phase_of (i num_frames : Z) : R :=
  (IZR i / IZR num_frames * 2 * PI)%R.

Definition motion_params (effect : string) (phase intensity : R) : motion :=
  if decide (effect = "parallax") then
    Offsets (sin phase * 20 * intensity) (cos (phase * 0.5) * 10 * intensity)
  else if decide (effect = "zoom") then
    ZoomFactor (1.0 + sin phase * 0.1 * intensity)
  else if decide (effect = "sway") then
    Offsets (sin phase * 15 * intensity) 0
  else
    Still.

(** [int(x)] on a float: truncation towards zero. *)
Definition py_int (x : R) : Z :=
  if Rle_dec 0 x then Zfloor x else (- Zfloor (- x))%Z.

(** [num_frames = int(duration * fps)] ([generate], line 270). *)
Definition frame_count (duration : R) (fps : Z) : Z :=
  py_int (duration * IZR fps).

(** The spec's reading of the frame count: an integer nearest to
    [duration * fps]. *)
Definition nearest_integer (x : R) (n : Z) : Prop :=
  (Rabs (IZR n - x) <= / 2)%R.

(** ** Images and the OpenCV primitives *)

Record rgb := RGB { red : Z; green : Z; blue : Z }.

#[export] Instance rgb_inhabited : Inhabited rgb := populate (RGB 0 0 0).
#[export] Instance R_inhabited : Inhabited R := populate 0%R.

Abbreviation rgb_image := (grid rgb).

(** BORDER_REPLICATE: an index outside [0, n-1] reads the nearest edge. *)
Definition clamp_index (n : nat) (k : Z) : nat :=
  Z.to_nat (Z.min (Z.max k 0) (Z.of_nat n - 1)).

Definition pixel_replicate (src : rgb_image) (y x : Z) : rgb :=
  at2 src (clamp_index (nrows src) y) (clamp_index (ncols src) x).

Definition round_half_up (v : R) : Z := Zfloor (v + / 2).

(** INTER_LINEAR on one channel: weights [fx], [fy] in [0, 1). *)
Definition mix (fx fy : R) (c00 c01 c10 c11 : Z) : Z :=
  round_half_up ((1 - fy) * ((1 - fx) * IZR c00 + fx * IZR c01)
                 + fy * ((1 - fx) * IZR c10 + fx * IZR c11)).

(** The bilinear sample of [src] at column [x], row [y]. *)
Definition bilinear (src : rgb_image) (x y : R) : rgb :=
  let x0 := Zfloor x in
  let y0 := Zfloor y in
  let fx := (x - IZR x0)%R in
  let fy := (y - IZR y0)%R in
  let p00 := pixel_replicate src y0 x0 in
  let p01 := pixel_replicate src y0 (x0 + 1) in
  let p10 := pixel_replicate src (y0 + 1) x0 in
  let p11 := pixel_replicate src (y0 + 1) (x0 + 1) in
  RGB (mix fx fy (red p00) (red p01) (red p10) (red p11))
      (mix fx fy (green p00) (green p01) (green p10) (green p11))
      (mix fx fy (blue p00) (blue p01) (blue p10) (blue p11)).

(** [cv2.remap(src, map_x, map_y, INTER_LINEAR, BORDER_REPLICATE)]: the
    result has the size of the maps; OpenCV asserts that the maps are not
    empty and agree in size. *)
Definition remap_px (src : rgb_image) (map_x map_y : grid R) : result rgb_image :=
  if decide (shape map_x = shape map_y ∧ nrows map_x ≠ 0 ∧ ncols map_x ≠ 0
             ∧ nrows src ≠ 0 ∧ ncols src ≠ 0) then
    Ok (tabulate (nrows map_x) (ncols map_x)
          (λ i j, bilinear src (at2 map_x i j) (at2 map_y i j)))
  else Raise CvError.

(** [cv2.resize(src, (dw, dh), interpolation=INTER_LINEAR)]: destination
    pixel (i, j) samples the source at the centre-aligned position; OpenCV
    asserts a non-empty source and a positive destination size. *)
Definition resize_px (src : rgb_image) (dw dh : Z) : result rgb_image :=
  if decide ((0 < dw)%Z ∧ (0 < dh)%Z ∧ nrows src ≠ 0 ∧ ncols src ≠ 0) then
    let sx := (INR (ncols src) / IZR dw)%R in
    let sy := (INR (nrows src) / IZR dh)%R in
    Ok (tabulate (Z.to_nat dh) (Z.to_nat dw)
          (λ i j, bilinear src ((INR j + / 2) * sx - / 2) ((INR i + / 2) * sy - / 2)))
  else Raise CvError.

(** [cv2.copyMakeBorder(src, top, bottom, left, right, BORDER_REPLICATE)]:
    OpenCV asserts [top >= 0 && bottom >= 0 && left >= 0 && right >= 0]. *)
Definition copyMakeBorder_px (src : rgb_image) (top bottom left right : Z) : result rgb_image :=
  if decide ((0 ≤ top)%Z ∧ (0 ≤ bottom)%Z ∧ (0 ≤ left)%Z ∧ (0 ≤ right)%Z) then
    Ok (tabulate (nrows src + Z.to_nat top + Z.to_nat bottom)
          (ncols src + Z.to_nat left + Z.to_nat right)
          (λ i j, pixel_replicate src (Z.of_nat i - top) (Z.of_nat j - left)))
  else Raise CvError.

(** ** numpy primitives of the field warp *)

(** [np.meshgrid(np.arange(height), np.arange(width), indexing='ij')] *)
Definition meshgrid_ij (height width : nat) : grid R * grid R :=
  (tabulate height width (λ i _, INR i), tabulate height width (λ _ j, INR j)).

(** Broadcasting of one dimension: equal sizes, or one of them is 1. *)
Definition broadcast_dim (a b : nat) : option nat :=
  if decide (a = b) then Some a
  else if decide (a = 1) then Some b
  else if decide (b = 1) then Some a
  else None.

Definition broadcast_index (n i : nat) : nat := if decide (n = 1) then 0 else i.

(** An elementwise binary operation on two 2-D arrays. *)
Definition broadcast2 (f : R → R → R) (a b : grid R) : result (grid R) :=
  match broadcast_dim (nrows a) (nrows b), broadcast_dim (ncols a) (ncols b) with
  | Some h, Some w =>
      Ok (tabulate h w (λ i j,
            f (at2 a (broadcast_index (nrows a) i) (broadcast_index (ncols a) j))
              (at2 b (broadcast_index (nrows b) i) (broadcast_index (ncols b) j))))
  | _, _ => Raise ValueError
  end.

(** [a * s] for a scalar [s]. *)
Definition scale (a : grid R) (s : R) : grid R := map (map (λ v, (v * s)%R)) a.

(** [np.clip(a, lo, hi)] is [minimum(maximum(a, lo), hi)]. *)
Definition clip (a : grid R) (lo hi : R) : grid R :=
  map (map (λ v, Rmin (Rmax v lo) hi)) a.

(** Lines 167-178 of [_apply_parallax]: the two sampling maps handed to
    [cv2.remap]. *)
Definition displacement_maps (img : rgb_image) (depth_map : grid R) (offset_x offset_y : R)
  : result (grid R * grid R) :=
  let height := nrows img in
  let width := ncols img in
  let '(y_coords, x_coords) := meshgrid_ij height width in
  match broadcast2 Rplus x_coords (scale depth_map offset_x),
        broadcast2 Rplus y_coords (scale depth_map offset_y) with
  | Ok x_displaced, Ok y_displaced =>
      Ok (clip x_displaced 0 (INR width - 1), clip y_displaced 0 (INR height - 1))
  | Raise e, _ => Raise e
  | _, Raise e => Raise e
  end.

(** Basic slicing [a[start:stop]] on an axis of length [n]: negative bounds
    count from the end, and both are clamped to the axis. *)
Definition slice_bound (n : nat) (k : Z) : nat :=
  Z.to_nat (if decide (k < 0)%Z then Z.max 0 (k + Z.of_nat n) else Z.min k (Z.of_nat n)).

Definition crop {A} (g : grid A) (y0 y1 x0 x1 : nat) : grid A :=
  (λ r, take (x1 - x0) (drop x0 r)) <$> take (y1 - y0) (drop y0 g).

(** ** The heap of arrays and the generator state *)

Abbreviation loc := positive.

Inductive buffer :=
| BImage (px : rgb_image)   (* uint8, H x W x 3 *)
| BDepth (d : grid R).      (* float, H x W *)

(** An ndarray object: its buffer and, for a view made by basic slicing,
    the window (row0, row1, col0, col1) it shows of that buffer. *)
Record handle := Handle {
  h_loc : loc;
  h_window : option (nat * nat * nat * nat)
}.

(** The MiDaS model with its input transform and the bicubic resampling to
    the image size: from the image to the raw prediction. *)
Definition predictor := rgb_image → grid R.

(** What the run does to the outside, in order. *)
Inductive event :=
| MakeDirs (output_dir : string)
| ModelLoaded
| ImageLoaded (input_path : string)
| DepthEstimated
| DepthMapSaved (output_path : string)
| VideoWritten (output_path : string) (fps : Z) (frames_bgr : list rgb_image).

Record world := World {
  heap : gmap loc buffer;
  trace : list event;
  self_model : option predictor   (* self.model *)
}.

(** The collaborators of a run. *)
Record collaborators := {
  hub_load : option predictor;              (* torch.hub.load; None when it raises *)
  open_input : string → option rgb_image;   (* the decoded input; None when missing *)
  writer_opens : bool                       (* cv2.VideoWriter(...).isOpened() *)
}.

(** State and exceptions. *)
Definition M (A : Type) : Type := world → world * result A.

#[export] Instance M_ret : MRet M := λ A a w, (w, Ok a).

#[export] Instance M_bind : MBind M := λ A B k m w,
  match m w with
  | (w', Ok a) => k a w'
  | (w', Raise e) => (w', Raise e)
  end.

Definition raise {A} (e : exn) : M A := λ w, (w, Raise e).

Definition lift {A} (r : result A) : M A := λ w, (w, r).

Definition alloc (b : buffer) : M handle := λ w,
  let l := fresh (dom (heap w)) in
  (World (<[l := b]> (heap w)) (trace w) (self_model w), Ok (Handle l None)).

Definition emit (e : event) : M unit := λ w,
  (World (heap w) (trace w ++ [e]) (self_model w), Ok tt).

Definition window {A} (win : option (nat * nat * nat * nat)) (g : grid A) : grid A :=
  match win with
  | None => g
  | Some (y0, y1, x0, x1) => crop g y0 y1 x0 x1
  end.

Definition read_image (a : handle) : M rgb_image := λ w,
  match heap w !! h_loc a with
  | Some (BImage px) => (w, Ok (window (h_window a) px))
  | _ => (w, Raise TypeError)
  end.

Definition read_depth (a : handle) : M (grid R) := λ w,
  match heap w !! h_loc a with
  | Some (BDepth d) => (w, Ok (window (h_window a) d))
  | _ => (w, Raise TypeError)
  end.

(** The OpenCV calls return a new array. *)
Definition cv2_remap (src : handle) (map_x map_y : grid R) : M handle :=
  img ← read_image src;
  px ← lift (remap_px img map_x map_y);
  alloc (BImage px).

Definition cv2_resize (src : handle) (dw dh : Z) : M handle :=
  img ← read_image src;
  px ← lift (resize_px img dw dh);
  alloc (BImage px).

Definition cv2_copyMakeBorder (src : handle) (top bottom left right : Z) : M handle :=
  img ← read_image src;
  px ← lift (copyMakeBorder_px img top bottom left right);
  alloc (BImage px).

(** [a.copy()] *)
Definition np_copy (a : handle) : M handle :=
  img ← read_image a;
  alloc (BImage img).

(** [a[ystart:ystop, xstart:xstop]]: a view on the buffer of [a]. *)
Definition np_slice (a : handle) (ystart ystop xstart xstop : Z) : M handle :=
  img ← read_image a;
  let y0 := slice_bound (nrows img) ystart in
  let y1 := slice_bound (nrows img) ystop in
  let x0 := slice_bound (ncols img) xstart in
  let x1 := slice_bound (ncols img) xstop in
  let '(by0, bx0) := match h_window a with
                     | None => (0, 0)
                     | Some (r0, _, c0, _) => (r0, c0)
                     end in
  mret (Handle (h_loc a) (Some (by0 + y0, by0 + y1, bx0 + x0, bx0 + x1))).

(** ** The warps *)

Definition _apply_parallax (image depth_map : handle) (offset_x offset_y : R) : M handle :=
  img ← read_image image;
  depth ← read_depth depth_map;
  maps ← lift (displacement_maps img depth offset_x offset_y);
  cv2_remap image maps.1 maps.2.

Definition _apply_zoom (image depth_map : handle) (zoom_factor : R) : M handle :=
  img ← read_image image;
  let height := Z.of_nat (nrows img) in
  let width := Z.of_nat (ncols img) in
  let new_height := py_int (IZR height * zoom_factor) in
  let new_width := py_int (IZR width * zoom_factor) in
  zoomed ← cv2_resize image new_width new_height;
  let y_offset := ((new_height - height) `div` 2)%Z in
  let x_offset := ((new_width - width) `div` 2)%Z in
  if Rlt_dec 1.0 zoom_factor then
    np_slice zoomed y_offset (y_offset + height) x_offset (x_offset + width)
  else
    frame ← cv2_copyMakeBorder zoomed y_offset y_offset x_offset x_offset;
    cv2_resize frame width height.

(** ** The frame loop *)

(** One pass of the loop body at a given phase. *)
Definition render_frame (image depth_map : handle) (effect : string)
    (intensity phase : R) : M handle :=
  match motion_params effect phase intensity with
  | Offsets offset_x offset_y => _apply_parallax image depth_map offset_x offset_y
  | ZoomFactor zoom_factor => _apply_zoom image depth_map zoom_factor
  | Still => np_copy image
  end.

(** [for i in indices: frame = body(i); frames.append(frame)] *)
Fixpoint frame_loop (body : Z → M handle) (indices : list Z) (frames : list handle)
  : M (list handle) :=
  match indices with
  | [] => mret frames
  | i :: rest => frame ← body i; frame_loop body rest (frames ++ [frame])
  end.

Definition generate_parallax_frames (image depth_map : handle) (num_frames : Z)
    (effect : string) (intensity : R) : M (list handle) :=
  _ ← read_image image;   (* height, width = image.shape[:2] *)
  frame_loop (λ i, render_frame image depth_map effect intensity (phase_of i num_frames))
             (seqZ 0 num_frames) [].

(** ** The pipeline ([generate] and the methods it calls) *)

Definition load_model (env : collaborators) : M unit :=
  match hub_load env with
  | Some model =>
      λ w, (World (heap w) (trace w ++ [ModelLoaded]) (Some model), Ok tt)
  | None => raise SystemExit
  end.

(** Returns the PIL image and [np.array(img)], a new array. *)
Definition load_image (env : collaborators) (input_path : string)
  : M (rgb_image * handle) :=
  match open_input env input_path with
  | Some img =>
      _ ← emit (ImageLoaded input_path);
      image_np ← alloc (BImage img);
      mret (img, image_np)
  | None => raise SystemExit
  end.

Definition estimate_depth (image_pil : rgb_image) : M handle := λ w,
  match self_model w with
  | Some model =>
      (_ ← emit DepthEstimated;
       depth_map ← lift (normalize_depth (model image_pil));
       alloc (BDepth depth_map)) w
  | None => (w, Raise TypeError)
  end.

Definition save_depth_visualization (depth_map : handle) (output_path : string) : M unit :=
  _ ← read_depth depth_map;
  emit (DepthMapSaved output_path).

(** [cv2.cvtColor(frame, cv2.COLOR_RGB2BGR)] *)
Definition rgb2bgr (frame : rgb_image) : rgb_image :=
  map (map (λ p, RGB (blue p) (green p) (red p))) frame.

Fixpoint read_frames (frames : list handle) : M (list rgb_image) :=
  match frames with
  | [] => mret []
  | frame :: rest =>
      px ← read_image frame;
      written ← read_frames rest;
      mret (rgb2bgr px :: written)
  end.

Definition encode_video (env : collaborators) (frames : list handle)
    (output_path : string) (fps : Z) : M unit :=
  match frames with
  | [] => raise IndexError   (* frames[0] *)
  | first :: _ =>
      _ ← read_image first;
      if writer_opens env then
        written ← read_frames frames;
        emit (VideoWritten output_path fps written)
      else raise SystemExit
  end.

Fixpoint ends_with_slash (s : string) : bool :=
  match s with
  | EmptyString => false
  | String c EmptyString => bool_decide (c = "/"%char)
  | String _ rest => ends_with_slash rest
  end.

(** [os.path.join(dir, name)] for a relative [name]. *)
Definition path_join (dir name : string) : string :=
  if decide (dir = "") then name
  else if ends_with_slash dir then dir +:+ name
  else dir +:+ "/" +:+ name.

Definition generate (env : collaborators) (input_path output_dir effect : string)
    (duration : R) (fps : Z) (intensity : R) : M unit :=
  _ ← emit (MakeDirs output_dir);
  _ ← (λ w, match self_model w with
            | None => load_model env w
            | Some _ => (w, Ok tt)
            end);
  loaded ← load_image env input_path;
  depth_map ← estimate_depth loaded.1;
  let depth_output := path_join output_dir "depth_map.png" in
  _ ← save_depth_visualization depth_map depth_output;
  let num_frames := frame_count duration fps in
  frames ← generate_parallax_frames loaded.2 depth_map num_frames effect intensity;
  let video_output := path_join output_dir "motion_poster.mp4" in
  encode_video env frames video_output fps.

(** ** Sample inputs *)

Definition red_px : rgb := RGB 255 0 0.
Definition blue_px : rgb := RGB 0 0 255.

(** A 2 x 2 picture and a depth ramp of the same shape. *)
Definition poster : rgb_image := [[red_px; blue_px]; [blue_px; red_px]].
Definition ramp : grid R := [[0; 1]; [1; 0]]%R.

(** A 100 x 100 solid-red picture. *)
Definition red_square : rgb_image := uniform 100 100 red_px.


(** A heap holding [poster] at 1 and [ramp] at 2. *)
Definition studio : world :=
  World (<[2%positive := BDepth ramp]> (<[1%positive := BImage poster]> ∅)) [] None.

(** A heap holding [red_square] at 1 and a flat depth field at 2. *)
Definition red_studio : world :=
  World (<[2%positive := BDepth (uniform 100 100 0%R)]>
           (<[1%positive := BImage red_square]> ∅)) [] None.

Definition image_h : handle := Handle 1%positive None.
Definition depth_h : handle := Handle 2%positive None.

(** Collaborators that all succeed: the input decodes to [poster] and the
    model predicts [ramp]. *)
Definition stub : collaborators := {|
  hub_load := Some (λ _, ramp);
  open_input := λ _, Some poster;
  writer_opens := true
|}.

(** ** Vocabulary of the statements *)

(** What [m] does when run in [w]: [Q] holds of the final world and value
    when it returns, [E] of the final world and exception when it raises. *)
Definition outcome {A} (m : M A) (w : world)
    (Q : world → A → Prop) (E : world → exn → Prop) : Prop :=
  match m w with
  | (w', Ok a) => Q w' a
  | (w', Raise e) => E w' e
  end.

(** [m] run in [w] returns normally, and [Q] holds then. *)
Definition returns {A} (m : M A) (w : world) (Q : world → A → Prop) : Prop :=
  outcome m w Q (λ _ _, False).

(** The pixels an image handle shows in [w]. *)
Definition pixels_of (w : world) (a : handle) : option rgb_image :=
  match heap w !! h_loc a with
  | Some (BImage px) => Some (window (h_window a) px)
  | _ => None
  end.

(** The values a depth handle shows in [w]. *)
Definition depth_of (w : world) (a : handle) : option (grid R) :=
  match heap w !! h_loc a with
  | Some (BDepth d) => Some (window (h_window a) d)
  | _ => None
  end.

(** [body] run on the indices in order, from [w] to [w'], returned [frames]
    one by one. *)
Inductive rendered (body : Z → M handle) : list Z → world → list handle → world → Prop :=
| rendered_nil w : rendered body [] w [] w
| rendered_cons i rest w w1 w' frame frames :
    body i w = (w1, Ok frame) →
    rendered body rest w1 frames w' →
    rendered body (i :: rest) w (frame :: frames) w'.



(** [a] is a new array holding [px]: [w'] is [w] with one more buffer. *)
Definition new_image (w : world) (px : rgb_image) (w' : world) (a : handle) : Prop :=
  ∃ l, heap w !! l = None
       ∧ a = Handle l None
       ∧ w' = World (<[l := BImage px]> (heap w)) (trace w) (self_model w).

(** [a] names a buffer that [w] did not have and [w'] has; all buffers of
    [w] are in [w'] as they were. *)
Definition fresh_handle (w w' : world) (a : handle) : Prop :=
  heap w ⊆ heap w' ∧ heap w !! h_loc a = None ∧ is_Some (heap w' !! h_loc a).

(** ** More sample inputs *)

(** A 3 x 3 depth map, which does not fit the 2 x 2 [poster]. *)
Definition ramp3 : grid R := [[0; 1; 0]; [1; 0; 1]; [0; 0; 0]]%R.

(** A heap holding [poster] at 1 and [ramp3] at 2. *)
Definition mismatched_studio : world :=
  World (<[2%positive := BDepth ramp3]> (<[1%positive := BImage poster]> ∅)) [] None.

(** ** The copy under docs/POC/motion-posters

    What this copy of motion-demo.py adds to the script: the choice of the
    model, the downscaling of the input, and the naming of the output
    directory.  Text is a string of bytes; for [_slugify] this agrees with
    Python on the UTF-8 bytes of every text that has no character outside
    ASCII whose lower case is an ASCII letter (U+212A and U+0130 are the
    only ones). *)

Module POC.

(** [model_map] of [load_model]: the hub id and the transform of each key. *)
Definition model_map : gmap string (string * string) :=
  <["midas_small" := ("MiDaS_small", "small")]>
    (<["dpt_hybrid" := ("DPT_Hybrid", "dpt")]>
       (<["dpt_large" := ("DPT_Large", "dpt")]> ∅)).

(** [load_model], with the hub as a collaborator: from the hub id and
    whether the small transform is chosen to the model with its transform,
    or None when something in the try block raises (the run ends there). *)
Definition load_model (hub_fetch : string → bool → option predictor) (model_key : string)
  : M unit :=
  match model_map !! model_key with
  | None => raise ValueError
  | Some selected =>
      match hub_fetch selected.1 (bool_decide (selected.2 = "small")) with
      | Some model =>
          λ w, (World (heap w) (trace w ++ [ModelLoaded]) (Some model), Ok tt)
      | None => raise SystemExit
      end
  end.



(** Characters by code. *)
Definition code (c : ascii) : nat := nat_of_ascii c.

(** [str.isspace] on ASCII: tab to carriage return, the four separators,
    and the space. *)
Definition is_space (c : ascii) : bool :=
  bool_decide (9 ≤ code c ≤ 13 ∨ 28 ≤ code c ≤ 32).

(** [str.lower] on one character. *)
Definition lower_char (c : ascii) : ascii :=
  if bool_decide (65 ≤ code c ≤ 90) then ascii_of_nat (code c + 32) else c.

(** The class [a-z0-9]. *)
Definition slug_char (c : ascii) : bool :=
  bool_decide (97 ≤ code c ≤ 122 ∨ 48 ≤ code c ≤ 57).

Definition is_dash (c : ascii) : bool := bool_decide (c = "-"%char).

(** [s.lstrip(chars)] and [s.rstrip(chars)]. *)
Fixpoint lstrip (strippable : ascii → bool) (l : list ascii) : list ascii :=
  match l with
  | [] => []
  | c :: rest => if strippable c then lstrip strippable rest else l
  end.

Fixpoint rstrip (strippable : ascii → bool) (l : list ascii) : list ascii :=
  match l with
  | [] => []
  | c :: rest =>
      match rstrip strippable rest with
      | [] => if strippable c then [] else [c]
      | kept => c :: kept
      end
  end.

Definition strip (strippable : ascii → bool) (l : list ascii) : list ascii :=
  rstrip strippable (lstrip strippable l).

(** [re.sub(r'[^a-z0-9]+', '-', text)]: every maximal run of other
    characters becomes one dash; [in_run] says that the previous character
    belonged to such a run. *)
Fixpoint sub_runs (in_run : bool) (l : list ascii) : list ascii :=
  match l with
  | [] => []
  | c :: rest =>
      if slug_char c then c :: sub_runs false rest
      else if in_run then sub_runs true rest
      else "-"%char :: sub_runs true rest
  end.

Definition slug_of (text : list ascii) : list ascii :=
  let text := map lower_char (strip is_space text) in
  let text := sub_runs false text in
  match strip is_dash text with
  | [] => String.list_ascii_of_string "poster"
  | slug => slug
  end.

Definition _slugify (text : string) : string :=
  String.string_of_list_ascii (slug_of (String.list_ascii_of_string text)).

(** A slug: not empty, made of [a-z0-9] and single dashes, with no dash at
    either end. *)
Fixpoint single_dashes (l : list ascii) : Prop :=
  match l with
  | c1 :: ((c2 :: _) as rest) => ¬ (c1 = "-"%char ∧ c2 = "-"%char) ∧ single_dashes rest
  | _ => True
  end.

Definition is_slug (l : list ascii) : Prop :=
  l ≠ []
  ∧ Forall (λ c, slug_char c = true ∨ c = "-"%char) l
  ∧ single_dashes l
  ∧ head l ≠ Some "-"%char
  ∧ last l ≠ Some "-"%char.

(** [os.path.exists] of the two marker files in a directory; a path is the
    list of its components below the root. *)
Definition is_repo_root (file_exists : list string → bool) (dir : list string) : bool :=
  file_exists (dir ++ ["package.json"]) && file_exists (dir ++ ["server.js"]).

(** The loop of [_find_repo_root] from [cur], given in reverse: test the
    directory, else go to its parent, until the parent is the directory
    itself. *)
Fixpoint walk_up (file_exists : list string → bool) (rev_cur : list string)
  : option (list string) :=
  if is_repo_root file_exists (reverse rev_cur) then Some (reverse rev_cur)
  else match rev_cur with
       | [] => None
       | _ :: rev_parent => walk_up file_exists rev_parent
       end.

Definition _find_repo_root (file_exists : list string → bool) (start_dir : list string)
  : list string :=
  match walk_up file_exists (reverse start_dir) with
  | Some root => root
  | None => start_dir
  end.

End POC.

(** * Properties *)

Section MotionParameters.
Local Open Scope R_scope.

Lemma py_int_floor (x : R) (n : Z) : 0 <= x → IZR n <= x < IZR n + 1 → py_int x = n.
Proof.
  intros Hx Hn. unfold py_int. destruct (Rle_dec 0 x); [|lra]. by apply Zfloor_eq.
Qed.

Lemma py_int_IZR (n : Z) : py_int (IZR n) = n.
Proof.
  unfold py_int. destruct (Rle_dec 0 (IZR n)).
  - apply ZfloorZ.
  - rewrite ZfloorNZ. lia.
Qed.

Lemma phase_of_first (num_frames : Z) : phase_of 0 num_frames = 0.
Proof. unfold phase_of. lra. Qed.

Lemma phase_of_wrap (num_frames : Z) : num_frames ≠ 0%Z → phase_of num_frames num_frames = 2 * PI.
Proof.
  intros Hn. unfold phase_of. assert (IZR num_frames <> 0) by (by apply not_0_IZR).
  field. done.
Qed.

Lemma phase_of_shift (i num_frames : Z) :
  num_frames ≠ 0%Z → phase_of (i + num_frames) num_frames = phase_of i num_frames + 2 * PI.
Proof.
  intros Hn. unfold phase_of. rewrite plus_IZR.
  assert (IZR num_frames <> 0) by (by apply not_0_IZR). field. done.
Qed.

Lemma motion_params_parallax phase intensity :
  motion_params "parallax" phase intensity
  = Offsets (sin phase * 20 * intensity) (cos (phase * 0.5) * 10 * intensity).
Proof. reflexivity. Qed.

Lemma motion_params_zoom phase intensity :
  motion_params "zoom" phase intensity = ZoomFactor (1.0 + sin phase * 0.1 * intensity).
Proof. reflexivity. Qed.

Lemma motion_params_sway phase intensity :
  motion_params "sway" phase intensity = Offsets (sin phase * 15 * intensity) 0.
Proof. reflexivity. Qed.

Lemma motion_params_other effect phase intensity :
  effect ≠ "parallax" → effect ≠ "zoom" → effect ≠ "sway" →
  motion_params effect phase intensity = Still.
Proof. intros. unfold motion_params. repeat case_decide; done. Qed.

Lemma sin_shift x : sin (x + 2 * PI) = sin x.
Proof. rewrite sin_plus, sin_2PI, cos_2PI. lra. Qed.

Lemma cos_half_shift x : cos ((x + 2 * PI) * 0.5) = - cos (x * 0.5).
Proof.
  replace ((x + 2 * PI) * 0.5) with (x * 0.5 + PI) by lra. apply neg_cos.
Qed.

Lemma sway_periodic phase intensity :
  motion_params "sway" (phase + 2 * PI) intensity = motion_params "sway" phase intensity.
Proof. rewrite !motion_params_sway, sin_shift. done. Qed.

Lemma zoom_periodic phase intensity :
  motion_params "zoom" (phase + 2 * PI) intensity = motion_params "zoom" phase intensity.
Proof. rewrite !motion_params_zoom, sin_shift. done. Qed.

Lemma parallax_shift phase intensity :
  motion_params "parallax" (phase + 2 * PI) intensity
  = Offsets (sin phase * 20 * intensity) (- (cos (phase * 0.5) * 10 * intensity)).
Proof.
  rewrite motion_params_parallax, sin_shift, cos_half_shift. f_equal. lra.
Qed.

(** One cycle later, frame i + N has the same [offset_x] as frame i and the
    opposite [offset_y]. *)
Lemma parallax_next_cycle (i num_frames : Z) intensity :
  num_frames ≠ 0%Z →
  motion_params "parallax" (phase_of (i + num_frames) num_frames) intensity
  = Offsets (sin (phase_of i num_frames) * 20 * intensity)
            (- (cos (phase_of i num_frames * 0.5) * 10 * intensity)).
Proof. intros Hn. rewrite phase_of_shift by done. apply parallax_shift. Qed.

(** Three quarters into a 96-frame loop at intensity 1, the zoom factor is
    0.9. *)
Lemma zoom_factor_at_three_quarters :
  motion_params "zoom" (phase_of 72 96) 1 = ZoomFactor 0.9.
Proof.
  rewrite motion_params_zoom. unfold phase_of.
  replace (72 / 96 * 2 * PI) with (3 * (PI / 2)) by lra.
  rewrite sin_3PI2. f_equal. lra.
Qed.

(** C2.  The claim asks the motion parameters at phase 0 and at phase 2 pi to
    agree for parallax, zoom and sway.  For 'parallax' they do not: with
    intensity 1 and 96 frames, frame 0 has offsets (0, 10) while the
    hypothetical frame 96, at phase 2 pi, has offsets (0, -10), because
    [offset_y] runs at half the frequency.  ([sway_periodic] and
    [zoom_periodic] above show that the other two effects do close the loop.) *)
Theorem parallax_not_periodic :
  motion_params "parallax" (phase_of 0 96) 1 = Offsets 0 10
  ∧ motion_params "parallax" (phase_of 96 96) 1 = Offsets 0 (-10)
  ∧ motion_params "parallax" (phase_of 0 96) 1 ≠ motion_params "parallax" (phase_of 96 96) 1.
Proof.
  assert (H0 : motion_params "parallax" (phase_of 0 96) 1 = Offsets 0 10).
  { rewrite phase_of_first, motion_params_parallax.
    replace (0 * 0.5) with 0 by lra. rewrite sin_0, cos_0. f_equal; lra. }
  assert (H1 : motion_params "parallax" (phase_of 96 96) 1 = Offsets 0 (-10)).
  { rewrite phase_of_wrap by done. replace (2 * PI) with (0 + 2 * PI) by lra.
    rewrite parallax_shift. replace (0 * 0.5) with 0 by lra.
    rewrite sin_0, cos_0. f_equal; lra. }
  split; [done|]. split; [done|].
  rewrite H0, H1. intros Heq. injection Heq. lra.
Qed.

Lemma frame_count_example : frame_count 1.7 24 = 40%Z.
Proof. unfold frame_count. apply py_int_floor; lra. Qed.


(** C3, as stated, fails: for duration 1.7 s at 24 fps the product is 40.8,
    the code takes [int(40.8) = 40] frames, and 40 is not an integer nearest
    to 40.8. *)
Lemma frame_count_not_rounded : ¬ nearest_integer (1.7 * 24) (frame_count 1.7 24).
Proof.
  rewrite frame_count_example. unfold nearest_integer.
  unfold Rabs. destruct (Rcase_abs _); lra.
Qed.

End MotionParameters.

Section DepthNormalisation.

(** *** binary32: a uniform field *)

Lemma SFcompare_diag (c : float32) :
  SFcompare c c = match c with S754_nan => None | _ => Some Eq end.
Proof.
  destruct c as [s|s| |s m e]; simpl; [by destruct s | by destruct s | done |].
  rewrite Z.compare_refl, Pos.compare_cont_refl. by destruct s.
Qed.

Lemma f32_minimum_diag (c : float32) : f32_minimum c c = c.
Proof. unfold f32_minimum. rewrite SFcompare_diag. by destruct c. Qed.

Lemma f32_maximum_diag (c : float32) : f32_maximum c c = c.
Proof. unfold f32_maximum. rewrite SFcompare_diag. by destruct c. Qed.

Lemma f32_zero_over_zero (c : float32) : f32_div (f32_sub c c) (f32_sub c c) = S754_nan.
Proof.
  unfold f32_div, f32_sub.
  destruct c as [s|s| |s m e]; simpl; [by destruct s | by destruct s | done |].
  by rewrite Z.sub_diag.
Qed.

Lemma foldl_diag {A} (f : A → A → A) (c : A) (n : nat) :
  f c c = c → foldl f c (replicate n c) = c.
Proof. intros Hf. induction n as [|n IH]; simpl; [done|]. by rewrite Hf. Qed.

Lemma concat_uniform {A} (h w : nat) (c : A) :
  concat (uniform h w c) = replicate (h * w) c.
Proof.
  unfold uniform. induction h as [|h IH]; simpl; [done|].
  by rewrite IH, replicate_add.
Qed.

Lemma map_uniform {A B} (f : A → B) (h w : nat) (c : A) :
  map (map f) (uniform h w c) = uniform h w (f c).
Proof.
  unfold uniform. change (map (map f)) with (fmap (M:=list) (fmap (M:=list) f)).
  by rewrite !fmap_replicate.
Qed.

(** C1.  The claim wants the all-zero field, free of NaN, for a raw depth
    field whose values are all equal.  The code divides without a guard: in
    binary32 a uniform h x w field of any value [c] is normalised to the
    field of NaN, since [c - c] is a zero (or NaN) and 0 / 0 is NaN. *)
Theorem uniform_depth_normalizes_to_nan (c : float32) (h w : nat) :
  h ≠ 0 → w ≠ 0 →
  normalize_depth (uniform h w c) = Ok (uniform h w S754_nan).
Proof.
  intros Hh Hw. unfold normalize_depth, array_min, array_max.
  rewrite concat_uniform.
  destruct (h * w) as [|n] eqn:Hn; [lia|]. simpl.
  rewrite foldl_diag by apply f32_minimum_diag.
  rewrite foldl_diag by apply f32_maximum_diag.
  by rewrite map_uniform, f32_zero_over_zero.
Qed.

Lemma uniform_half_is_nan :
  2 ≠ 0 ∧ 2 ≠ 0 ∧ normalize_depth (uniform 2 2 half32) = Ok (uniform 2 2 S754_nan).
Proof.
  split; [lia|]. split; [lia|]. apply uniform_depth_normalizes_to_nan; lia.
Defined.

(** *** exact arithmetic: a field with non-zero range *)

Local Open Scope R_scope.



Lemma foldl_Rmin_monotone (f : R → R) (x : R) (xs : list R) :
  (∀ a b, a <= b → f a <= f b) →
  foldl Rmin (f x) (f <$> xs) = f (foldl Rmin x xs).
Proof.
  intros Hf. revert x. induction xs as [|y ys IH]; intros x; simpl; [done|].
  rewrite <- IH. f_equal. unfold Rmin.
  destruct (Rle_dec x y) as [Hxy|Hxy], (Rle_dec (f x) (f y)) as [Hf'|Hf']; try done.
  - exfalso. apply Hf'. by apply Hf.
  - apply Rle_antisym; [done|]. apply Hf. lra.
Qed.

Lemma foldl_Rmax_monotone (f : R → R) (x : R) (xs : list R) :
  (∀ a b, a <= b → f a <= f b) →
  foldl Rmax (f x) (f <$> xs) = f (foldl Rmax x xs).
Proof.
  intros Hf. revert x. induction xs as [|y ys IH]; intros x; simpl; [done|].
  rewrite <- IH. f_equal. unfold Rmax.
  destruct (Rle_dec x y) as [Hxy|Hxy], (Rle_dec (f x) (f y)) as [Hf'|Hf']; try done.
  - exfalso. apply Hf'. by apply Hf.
  - apply Rle_antisym; [|done]. apply Hf. lra.
Qed.

Lemma concat_map_map {A B} (f : A → B) (g : grid A) :
  concat (map (map f) g) = f <$> concat g.
Proof.
  induction g as [|r g IH]; simpl; [done|]. by rewrite IH, fmap_app.
Qed.





Lemma ramp_min : array_min ramp = Ok 0.
Proof.
  unfold array_min, ramp. simpl. f_equal.
  rewrite (Rmin_left 0 1) by lra. rewrite (Rmin_left 0 1) by lra. apply Rmin_left. lra.
Qed.

Lemma ramp_max : array_max ramp = Ok 1.
Proof.
  unfold array_max, ramp. simpl. f_equal.
  rewrite (Rmax_right 0 1) by lra. rewrite (Rmax_left 1 1) by lra. apply Rmax_left. lra.
Qed.


End DepthNormalisation.

Section Monad.
Context {A B : Type}.
Implicit Types (w : world) (e : exn).

Lemma run_bind (m : M A) (k : A → M B) w :
  (m ≫= k) w = match m w with
               | (w', Ok a) => k a w'
               | (w', Raise e) => (w', Raise e)
               end.
Proof. reflexivity. Qed.

Lemma outcome_ret (a : A) w Q E : Q w a → outcome (mret a) w Q E.
Proof. done. Qed.


Lemma outcome_lift (r : result A) w Q E :
  match r with Ok a => Q w a | Raise e => E w e end → outcome (lift r) w Q E.
Proof. unfold outcome, lift. by destruct r. Qed.

Lemma outcome_bind (m : M A) (k : A → M B) w Q E :
  outcome m w (λ w1 a, outcome (k a) w1 Q E) E → outcome (m ≫= k) w Q E.
Proof.
  unfold outcome. rewrite run_bind. by destruct (m w) as [w1 [a|e]].
Qed.

Lemma outcome_weaken (m : M A) w (Q Q' : world → A → Prop) (E E' : world → exn → Prop) :
  outcome m w Q E →
  (∀ w' a, Q w' a → Q' w' a) → (∀ w' e, E w' e → E' w' e) →
  outcome m w Q' E'.
Proof.
  unfold outcome. destruct (m w) as [w1 [a|e]]; auto.
Qed.

End Monad.

Section Heap.
Implicit Types (w : world) (a : handle).

Lemma outcome_alloc b w Q E :
  (∀ l, heap w !! l = None →
        Q (World (<[l := b]> (heap w)) (trace w) (self_model w)) (Handle l None)) →
  outcome (alloc b) w Q E.
Proof.
  intros HQ. unfold outcome, alloc. apply HQ.
  apply (not_elem_of_dom (D:=gset loc)), is_fresh.
Qed.


Lemma outcome_read_image a w Q E :
  match pixels_of w a with Some px => Q w px | None => E w TypeError end →
  outcome (read_image a) w Q E.
Proof.
  unfold outcome, read_image, pixels_of.
  by destruct (heap w !! h_loc a) as [[px|d]|].
Qed.

Lemma outcome_read_depth a w Q E :
  match depth_of w a with Some d => Q w d | None => E w TypeError end →
  outcome (read_depth a) w Q E.
Proof.
  unfold outcome, read_depth, depth_of.
  by destruct (heap w !! h_loc a) as [[px|d]|].
Qed.

Lemma pixels_of_extend w w' a px :
  heap w ⊆ heap w' → pixels_of w a = Some px → pixels_of w' a = Some px.
Proof.
  intros Hsub. unfold pixels_of.
  destruct (heap w !! h_loc a) as [b|] eqn:Hb; [|done].
  by rewrite (lookup_weaken _ _ _ _ Hb Hsub).
Qed.

Lemma depth_of_extend w w' a d :
  heap w ⊆ heap w' → depth_of w a = Some d → depth_of w' a = Some d.
Proof.
  intros Hsub. unfold depth_of.
  destruct (heap w !! h_loc a) as [b|] eqn:Hb; [|done].
  by rewrite (lookup_weaken _ _ _ _ Hb Hsub).
Qed.

Lemma pixels_of_new (m : gmap loc buffer) l px tr md :
  pixels_of (World (<[l := BImage px]> m) tr md) (Handle l None) = Some px.
Proof. unfold pixels_of. simpl. by rewrite lookup_insert_eq. Qed.

End Heap.
Section Grids.
Context {A : Type} `{Inhabited A}.
Implicit Types (g : grid A) (h w i j : nat).

Lemma nrows_tabulate h w (f : nat → nat → A) : nrows (tabulate h w f) = h.
Proof. unfold nrows, tabulate. by rewrite length_fmap, length_seq. Qed.

Lemma ncols_tabulate h w (f : nat → nat → A) : h ≠ 0 → ncols (tabulate h w f) = w.
Proof.
  intros Hh. unfold ncols, tabulate. destruct h as [|h]; [done|]. simpl.
  by rewrite length_fmap, length_seq.
Qed.

Lemma tabulate_rect h w (f : nat → nat → A) : rect h w (tabulate h w f).
Proof.
  split; [apply nrows_tabulate|]. unfold tabulate.
  apply Forall_fmap, Forall_forall. intros i _. simpl.
  by rewrite length_fmap, length_seq.
Qed.

Lemma tabulate_lookup h w (f : nat → nat → A) i :
  i < h → tabulate h w f !! i = Some (f i <$> seq 0 w).
Proof.
  intros Hi. unfold tabulate. by rewrite list_lookup_fmap, lookup_seq_lt.
Qed.

Lemma at2_tabulate h w (f : nat → nat → A) i j :
  i < h → j < w → at2 (tabulate h w f) i j = f i j.
Proof.
  intros Hi Hj. unfold at2.
  rewrite (list_lookup_total_correct _ _ _ (tabulate_lookup h w f i Hi)).
  apply list_lookup_total_correct. by rewrite list_lookup_fmap, lookup_seq_lt.
Qed.

Lemma tabulate_ext h w (f f' : nat → nat → A) :
  (∀ i j, i < h → j < w → f i j = f' i j) → tabulate h w f = tabulate h w f'.
Proof.
  intros Hf. unfold tabulate. apply list_eq. intros i.
  rewrite !list_lookup_fmap. destruct (seq 0 h !! i) as [i'|] eqn:Hi; [|done].
  apply lookup_seq in Hi as [-> Hi]. simpl. f_equal.
  apply list_eq. intros j. rewrite !list_lookup_fmap.
  destruct (seq 0 w !! j) as [j'|] eqn:Hj; [|done].
  apply lookup_seq in Hj as [-> Hj]. simpl. f_equal. by apply Hf.
Qed.

Lemma rect_ncols h w g : rect h w g → h ≠ 0 → ncols g = w.
Proof.
  intros [Hlen Hrows] Hh. destruct g as [|r g]; [done|].
  by apply Forall_cons in Hrows as [? _].
Qed.

Lemma rect_nrows h w g : rect h w g → nrows g = h.
Proof. by intros [? _]. Qed.

Lemma tabulate_at2 h w g : rect h w g → tabulate h w (at2 g) = g.
Proof.
  intros [Hlen Hrows]. unfold tabulate. apply list_eq. intros i.
  rewrite list_lookup_fmap. destruct (decide (i < h)) as [Hi|Hi].
  - rewrite lookup_seq_lt by done. simpl.
    destruct (lookup_lt_is_Some_2 g i) as [r Hr]; [lia|]. rewrite Hr. f_equal.
    assert (Hw : length r = w).
    { rewrite Forall_forall in Hrows. apply Hrows. by eapply list_elem_of_lookup_2. }
    apply list_eq. intros j. rewrite list_lookup_fmap.
    destruct (decide (j < w)) as [Hj|Hj].
    + rewrite lookup_seq_lt by done. simpl. unfold at2.
      rewrite (list_lookup_total_correct _ _ _ Hr).
      destruct (lookup_lt_is_Some_2 r j) as [x Hx]; [lia|]. rewrite Hx. f_equal.
      by apply list_lookup_total_correct.
    + rewrite lookup_seq_ge by lia. simpl. symmetry. apply lookup_ge_None. lia.
  - rewrite lookup_seq_ge by lia. simpl. symmetry. apply lookup_ge_None. lia.
Qed.



End Grids.
Section Sampling.
Local Open Scope R_scope.
Implicit Types (src img : rgb_image) (h w i j : nat).

Lemma clamp_index_in (n i : nat) : (i < n)%nat → clamp_index n (Z.of_nat i) = i.
Proof. intros Hi. unfold clamp_index. lia. Qed.


Lemma pixel_replicate_in src i j :
  (i < nrows src)%nat → (j < ncols src)%nat →
  pixel_replicate src (Z.of_nat i) (Z.of_nat j) = at2 src i j.
Proof.
  intros Hi Hj. unfold pixel_replicate. by rewrite !clamp_index_in.
Qed.

Lemma round_half_up_IZR (c : Z) : round_half_up (IZR c) = c.
Proof. unfold round_half_up. apply Zfloor_eq. lra. Qed.

Lemma mix_corner (c00 c01 c10 c11 : Z) : mix 0 0 c00 c01 c10 c11 = c00.
Proof.
  unfold mix. rewrite <- (round_half_up_IZR c00) at 2. f_equal. lra.
Qed.

Lemma Zfloor_INR (n : nat) : Zfloor (INR n) = Z.of_nat n.
Proof. rewrite INR_IZR_INZ. apply ZfloorZ. Qed.

(** Sampling at a grid point returns the pixel there. *)
Lemma bilinear_grid src i j :
  (i < nrows src)%nat → (j < ncols src)%nat →
  bilinear src (INR j) (INR i) = at2 src i j.
Proof.
  intros Hi Hj. unfold bilinear. rewrite !Zfloor_INR, <- !INR_IZR_INZ.
  replace (INR j - INR j) with 0 by lra. replace (INR i - INR i) with 0 by lra.
  rewrite !mix_corner, pixel_replicate_in by done.
  by destruct (at2 src i j).
Qed.

Lemma resize_same h w src :
  rect h w src → h ≠ 0%nat → w ≠ 0%nat →
  resize_px src (Z.of_nat w) (Z.of_nat h) = Ok src.
Proof.
  intros Hrect Hh Hw. unfold resize_px.
  rewrite (rect_nrows _ _ _ Hrect), (rect_ncols _ _ _ Hrect Hh).
  rewrite decide_True by (repeat split; lia). f_equal.
  rewrite !Nat2Z.id, <- !INR_IZR_INZ.
  etrans; [|apply (tabulate_at2 h w src Hrect)].
  apply tabulate_ext. intros i j Hi Hj.
  assert (INR w <> 0) by (by apply not_0_INR).
  assert (INR h <> 0) by (by apply not_0_INR).
  replace ((INR j + / 2) * (INR w / INR w) - / 2) with (INR j) by (field; done).
  replace ((INR i + / 2) * (INR h / INR h) - / 2) with (INR i) by (field; done).
  apply bilinear_grid.
  - by rewrite (rect_nrows _ _ _ Hrect).
  - by rewrite (rect_ncols _ _ _ Hrect Hh).
Qed.

Lemma copyMakeBorder_zero h w src :
  rect h w src → copyMakeBorder_px src 0 0 0 0 = Ok src.
Proof.
  intros Hrect. unfold copyMakeBorder_px. rewrite decide_True by lia. f_equal.
  simpl. rewrite !Nat.add_0_r, (rect_nrows _ _ _ Hrect).
  destruct (decide (h = 0%nat)) as [->|Hh].
  - destruct Hrect as [Hlen _]. by destruct src.
  - rewrite (rect_ncols _ _ _ Hrect Hh).
    etrans; [|apply (tabulate_at2 h w src Hrect)].
    apply tabulate_ext. intros i j Hi Hj. rewrite !Z.sub_0_r.
    apply pixel_replicate_in.
    + by rewrite (rect_nrows _ _ _ Hrect).
    + by rewrite (rect_ncols _ _ _ Hrect Hh).
Qed.


End Sampling.
Section FieldWarp.
Local Open Scope R_scope.
Implicit Types (img : rgb_image) (depth a b : grid R) (h w i j : nat).

Lemma rect_map {A B} (f : A → B) h w (g : grid A) :
  rect h w g → rect h w (map (map f) g).
Proof.
  intros [Hlen Hrows]. split; [by rewrite length_map|].
  change (map (map f) g) with ((fmap (M:=list) f) <$> g).
  apply Forall_fmap. eapply Forall_impl; [done|].
  intros r Hr. simpl. by rewrite length_fmap.
Qed.

Lemma at2_map {A B} `{Inhabited A} `{Inhabited B} (f : A → B) h w (g : grid A) i j :
  rect h w g → (i < h)%nat → (j < w)%nat →
  at2 (map (map f) g) i j = f (at2 g i j).
Proof.
  intros [Hlen Hrows] Hi Hj. unfold at2.
  change (map (map f) g) with ((fmap (M:=list) f) <$> g).
  destruct (lookup_lt_is_Some_2 g i) as [r Hr]; [lia|].
  assert (Hw : length r = w).
  { rewrite Forall_forall in Hrows. apply Hrows. by eapply list_elem_of_lookup_2. }
  rewrite (list_lookup_total_fmap (fmap f) g i) by lia.
  rewrite (list_lookup_total_correct _ _ _ Hr).
  by rewrite (list_lookup_total_fmap f r j) by lia.
Qed.

Lemma broadcast_dim_same (n : nat) : broadcast_dim n n = Some n.
Proof. unfold broadcast_dim. by rewrite decide_True. Qed.

Lemma broadcast_index_lt (n i : nat) : (i < n)%nat → broadcast_index n i = i.
Proof. intros Hi. unfold broadcast_index. case_decide; lia. Qed.


Lemma broadcast2_same_shape (f : R → R → R) h w a b :
  rect h w a → rect h w b →
  broadcast2 f a b
  = Ok (tabulate h (if decide (h = 0%nat) then 0%nat else w)
          (λ i j, f (at2 a i j) (at2 b i j))).
Proof.
  intros Ha Hb. unfold broadcast2.
  rewrite (rect_nrows _ _ _ Ha), (rect_nrows _ _ _ Hb), broadcast_dim_same.
  case_decide as Hh.
  - subst h. destruct Ha as [Ha _], Hb as [Hb _]. destruct a, b; try done.
  - rewrite (rect_ncols _ _ _ Ha Hh), (rect_ncols _ _ _ Hb Hh), broadcast_dim_same.
    f_equal. apply tabulate_ext. intros i j Hi Hj.
    by rewrite !broadcast_index_lt.
Qed.


Lemma clip_inside (v lo hi : R) : lo <= v <= hi → Rmin (Rmax v lo) hi = v.
Proof. intros Hv. unfold Rmin, Rmax. repeat destruct (Rle_dec _ _); lra. Qed.








Lemma displacement_maps_defined img depth (offset_x offset_y : R) h w :
  rect h w img → rect h w depth →
  ∃ map_x map_y,
    displacement_maps img depth offset_x offset_y = Ok (map_x, map_y)
    ∧ rect h w map_x ∧ rect h w map_y.
Proof.
  intros Himg Hdepth. unfold displacement_maps, meshgrid_ij.
  rewrite (rect_nrows _ _ _ Himg).
  assert (Hw : ∀ g : grid R, rect h (if decide (h = 0%nat) then 0%nat else w) g → rect h w g).
  { intros g. case_decide as Hh; [|done]. subst h. intros [Hg _].
    destruct g; [|done]. by split. }
  assert (Hcols : rect h w (tabulate h (ncols img) (λ _ j, INR j))
                  ∧ rect h w (tabulate h (ncols img) (λ i _, INR i))).
  { destruct (decide (h = 0%nat)) as [->|Hh]; [by split|].
    rewrite (rect_ncols _ _ _ Himg Hh). split; apply tabulate_rect. }
  destruct Hcols as [Hxc Hyc].
  rewrite (broadcast2_same_shape Rplus h w) by (done || by apply rect_map).
  rewrite (broadcast2_same_shape Rplus h w) by (done || by apply rect_map).
  eexists _, _. split; [done|].
  split; apply rect_map, Hw, tabulate_rect.
Qed.



Lemma poster_rect : rect 2 2 poster.
Proof. split; [done | by repeat constructor]. Qed.

Lemma ramp_rect : rect 2 2 ramp.
Proof. split; [done | by repeat constructor]. Qed.


End FieldWarp.
Section Primitives.
Implicit Types (w : world) (a src : handle) (px img : rgb_image).

Lemma new_image_heap w px w' a : new_image w px w' a → heap w ⊆ heap w'.
Proof. intros (l & Hl & -> & ->). simpl. by apply insert_subseteq. Qed.

Lemma new_image_pixels w px w' a : new_image w px w' a → pixels_of w' a = Some px.
Proof. intros (l & Hl & -> & ->). apply pixels_of_new. Qed.

Lemma new_image_fresh w px w' a : new_image w px w' a → fresh_handle w w' a.
Proof.
  intros Hnew. split; [by eapply new_image_heap|].
  destruct Hnew as (l & Hl & -> & ->). simpl. split; [done|].
  rewrite lookup_insert_eq. by eexists.
Qed.

Lemma fresh_handle_trans w w1 w' a :
  heap w ⊆ heap w1 → fresh_handle w1 w' a → fresh_handle w w' a.
Proof.
  intros Hsub (Hsub' & Hnone & Hsome). split; [by etrans|]. split; [|done].
  destruct (heap w !! h_loc a) as [b|] eqn:Hb; [|done].
  by rewrite (lookup_weaken _ _ _ _ Hb Hsub) in Hnone.
Qed.

Lemma outcome_alloc_image px w (Q : world → handle → Prop) E :
  (∀ w' a, new_image w px w' a → Q w' a) → outcome (alloc (BImage px)) w Q E.
Proof.
  intros HQ. apply outcome_alloc. intros l Hl. apply HQ. by exists l.
Qed.

(** The shape shared by the OpenCV calls: read the source, compute, and
    return the result as a new array. *)
Lemma outcome_new_image src (F : rgb_image → result rgb_image) w
    (Q : world → handle → Prop) E :
  match pixels_of w src with
  | Some img =>
      match F img with
      | Ok px => ∀ w' a, new_image w px w' a → Q w' a
      | Raise e => E w e
      end
  | None => E w TypeError
  end →
  outcome (img ← read_image src; px ← lift (F img); alloc (BImage px)) w Q E.
Proof.
  intros HQ. apply outcome_bind, outcome_read_image.
  destruct (pixels_of w src) as [img|]; [|done].
  apply outcome_bind, outcome_lift.
  destruct (F img) as [px|e]; [|done].
  by apply outcome_alloc_image.
Qed.

Lemma outcome_np_copy a w (Q : world → handle → Prop) E :
  match pixels_of w a with
  | Some img => ∀ w' c, new_image w img w' c → Q w' c
  | None => E w TypeError
  end →
  outcome (np_copy a) w Q E.
Proof.
  intros HQ. apply outcome_bind, outcome_read_image.
  destruct (pixels_of w a) as [img|]; [|done].
  by apply outcome_alloc_image.
Qed.

Lemma outcome_np_slice a (ystart ystop xstart xstop : Z) w (Q : world → handle → Prop) E :
  match pixels_of w a with
  | Some img => ∀ v, h_loc v = h_loc a → Q w v
  | None => E w TypeError
  end →
  outcome (np_slice a ystart ystop xstart xstop) w Q E.
Proof.
  intros HQ. apply outcome_bind, outcome_read_image.
  destruct (pixels_of w a) as [img|]; [|done].
  destruct (h_window a) as [[[[r0 r1] c0] c1]|]; by apply outcome_ret, HQ.
Qed.

End Primitives.
Section Warps.
Local Open Scope R_scope.
Implicit Types (w : world) (image depth_map : handle) (img : rgb_image) (depth : grid R).

Lemma rect_shape {A} h wd (g : grid A) : rect h wd g → h ≠ 0%nat → shape g = (h, wd).
Proof.
  intros Hg Hh. unfold shape. by rewrite (rect_nrows _ _ _ Hg), (rect_ncols _ _ _ Hg Hh).
Qed.

Lemma remap_px_defined img (map_x map_y : grid R) h wd :
  rect h wd img → rect h wd map_x → rect h wd map_y → h ≠ 0%nat → wd ≠ 0%nat →
  ∃ px, remap_px img map_x map_y = Ok px ∧ rect h wd px.
Proof.
  intros Himg Hx Hy Hh Hw. unfold remap_px.
  rewrite (rect_shape _ _ _ Hx Hh), (rect_shape _ _ _ Hy Hh).
  rewrite (rect_nrows _ _ _ Hx), (rect_ncols _ _ _ Hx Hh).
  rewrite (rect_nrows _ _ _ Himg), (rect_ncols _ _ _ Himg Hh).
  rewrite decide_True by done. eexists. split; [done|]. apply tabulate_rect.
Qed.

(** The field warp returns a new array of the shape of the source. *)
Lemma apply_parallax_returns image depth_map (offset_x offset_y : R) w img depth h wd :
  pixels_of w image = Some img → depth_of w depth_map = Some depth →
  rect h wd img → rect h wd depth → h ≠ 0%nat → wd ≠ 0%nat →
  returns (_apply_parallax image depth_map offset_x offset_y) w
    (λ w' frame, ∃ px, new_image w px w' frame ∧ rect h wd px).
Proof.
  intros Himg Hdepth Hri Hrd Hh Hw. unfold returns, _apply_parallax.
  apply outcome_bind, outcome_read_image. rewrite Himg.
  apply outcome_bind, outcome_read_depth. rewrite Hdepth.
  destruct (displacement_maps_defined img depth offset_x offset_y h wd Hri Hrd)
    as (map_x & map_y & -> & Hx & Hy).
  apply outcome_bind, outcome_lift. simpl.
  destruct (remap_px_defined img map_x map_y h wd) as (px & Hpx & Hrp); try done.
  unfold cv2_remap. apply outcome_new_image. rewrite Himg, Hpx.
  intros w' a Hnew. by exists px.
Qed.


(** Whatever the field warp does, it leaves every existing buffer as it
    was, and a frame it returns is a buffer of its own. *)
Lemma apply_parallax_fresh image depth_map (offset_x offset_y : R) w :
  outcome (_apply_parallax image depth_map offset_x offset_y) w
    (fresh_handle w) (λ w' _, heap w ⊆ heap w').
Proof.
  unfold _apply_parallax.
  apply outcome_bind, outcome_read_image. destruct (pixels_of w image) as [img|] eqn:Himg; [|done].
  apply outcome_bind, outcome_read_depth. destruct (depth_of w depth_map) as [depth|]; [|done].
  apply outcome_bind, outcome_lift. destruct (displacement_maps _ _ _ _) as [maps|e]; [|done].
  unfold cv2_remap. apply outcome_new_image. rewrite Himg.
  destruct (remap_px _ _ _) as [px|e]; [|done].
  intros w' a. apply new_image_fresh.
Qed.

Lemma py_int_INR (n : nat) : py_int (IZR (Z.of_nat n) * 1) = Z.of_nat n.
Proof. rewrite Rmult_1_r. apply py_int_IZR. Qed.

(** At zoom factor 1 the scalar warp returns a copy of the source. *)
Lemma apply_zoom_unit image depth_map (zoom_factor : R) w img h wd :
  zoom_factor = 1 →
  pixels_of w image = Some img → rect h wd img → h ≠ 0%nat → wd ≠ 0%nat →
  returns (_apply_zoom image depth_map zoom_factor) w
    (λ w' frame, heap w ⊆ heap w' ∧ pixels_of w' frame = Some img
                 ∧ heap w !! h_loc frame = None).
Proof.
  intros -> Himg Hri Hh Hw. unfold returns, _apply_zoom.
  apply outcome_bind, outcome_read_image. rewrite Himg.
  rewrite (rect_nrows _ _ _ Hri), (rect_ncols _ _ _ Hri Hh), !py_int_INR.
  rewrite !Z.sub_diag. change (0 `div` 2)%Z with 0%Z.
  apply outcome_bind. unfold cv2_resize at 1. apply outcome_new_image.
  rewrite Himg, (resize_same h wd) by done.
  intros w1 zoomed Hzoomed.
  destruct (Rlt_dec 1.0 1) as [Hlt|_]; [lra|].
  apply outcome_bind. unfold cv2_copyMakeBorder. apply outcome_new_image.
  rewrite (new_image_pixels _ _ _ _ Hzoomed), (copyMakeBorder_zero h wd) by done.
  intros w2 frame Hframe.
  unfold cv2_resize. apply outcome_new_image.
  rewrite (new_image_pixels _ _ _ _ Hframe), (resize_same h wd) by done.
  intros w' out Hout.
  assert (Hsub : heap w ⊆ heap w2).
  { etrans; by eapply new_image_heap. }
  split; [etrans; [done | by eapply new_image_heap]|].
  split; [by eapply new_image_pixels|].
  by destruct (fresh_handle_trans w w2 w' out Hsub (new_image_fresh _ _ _ _ Hout)) as (_ & ? & _).
Qed.

Lemma apply_zoom_fresh image depth_map (zoom_factor : R) w :
  outcome (_apply_zoom image depth_map zoom_factor) w
    (fresh_handle w) (λ w' _, heap w ⊆ heap w').
Proof.
  unfold _apply_zoom.
  apply outcome_bind, outcome_read_image. destruct (pixels_of w image) as [img|] eqn:Himg; [|done].
  apply outcome_bind. unfold cv2_resize at 1. apply outcome_new_image. rewrite Himg.
  destruct (resize_px _ _ _) as [px|e]; [|done].
  intros w1 zoomed Hzoomed. pose proof (new_image_fresh _ _ _ _ Hzoomed) as Hfz.
  pose proof (new_image_heap _ _ _ _ Hzoomed) as Hsub1.
  destruct (Rlt_dec 1.0 zoom_factor) as [Hlt|Hge].
  - apply outcome_np_slice. rewrite (new_image_pixels _ _ _ _ Hzoomed).
    intros v Hv. unfold fresh_handle. by rewrite Hv.
  - apply outcome_bind. unfold cv2_copyMakeBorder. apply outcome_new_image.
    rewrite (new_image_pixels _ _ _ _ Hzoomed).
    destruct (copyMakeBorder_px _ _ _ _ _) as [bordered|e]; [|done].
    intros w2 frame Hframe. pose proof (new_image_heap _ _ _ _ Hframe) as Hsub2.
    unfold cv2_resize. apply outcome_new_image.
    rewrite (new_image_pixels _ _ _ _ Hframe).
    destruct (resize_px _ _ _) as [out|e]; [|by etrans].
    intros w' a Hnew. apply (fresh_handle_trans w w2); [by etrans|].
    by eapply new_image_fresh.
Qed.

Lemma negative_border (new_height new_width height width : Z) :
  (new_height < height)%Z ∨ (new_width < width)%Z →
  ¬ ((0 ≤ (new_height - height) `div` 2)%Z ∧ (0 ≤ (new_height - height) `div` 2)%Z
     ∧ (0 ≤ (new_width - width) `div` 2)%Z ∧ (0 ≤ (new_width - width) `div` 2)%Z).
Proof. intros Hsmall. Z.div_mod_to_equations. lia. Qed.

(** Zooming out: as soon as one of the new dimensions is smaller than the
    original, [cv2.copyMakeBorder] is called with a negative border and the
    warp raises [cv2.error]. *)
Lemma apply_zoom_out_raises image depth_map (zoom_factor : R) w img :
  pixels_of w image = Some img →
  ¬ (1 < zoom_factor) →
  (py_int (INR (nrows img) * zoom_factor) < Z.of_nat (nrows img))%Z
  ∨ (py_int (INR (ncols img) * zoom_factor) < Z.of_nat (ncols img))%Z →
  outcome (_apply_zoom image depth_map zoom_factor) w
    (λ _ _, False) (λ _ e, e = CvError).
Proof.
  intros Himg Hz Hsmall. unfold _apply_zoom.
  apply outcome_bind, outcome_read_image. rewrite Himg.
  rewrite <- !INR_IZR_INZ.
  apply outcome_bind. unfold cv2_resize at 1. apply outcome_new_image. rewrite Himg.
  destruct (resize_px _ _ _) as [px|e] eqn:Hres.
  - intros w1 zoomed Hzoomed.
    destruct (Rlt_dec 1.0 zoom_factor) as [Hlt|_]; [lra|].
    apply outcome_bind. unfold cv2_copyMakeBorder. apply outcome_new_image.
    rewrite (new_image_pixels _ _ _ _ Hzoomed).
    unfold copyMakeBorder_px. rewrite decide_False; [done|].
    by apply negative_border.
  - revert Hres. unfold resize_px. case_decide; congruence.
Qed.

End Warps.

Section ZoomIn.
Local Open Scope R_scope.
Implicit Types (w : world) (image depth_map : handle) (img : rgb_image).

Lemma crop_rect {A} (g : grid A) (h wd y0 y1 x0 x1 : nat) :
  rect h wd g → (y1 ≤ h)%nat → (x1 ≤ wd)%nat →
  rect (y1 - y0) (x1 - x0) (crop g y0 y1 x0 x1).
Proof.
  intros [Hlen Hrows] Hy Hx. unfold crop. split.
  - rewrite length_fmap, length_take, length_drop. lia.
  - apply Forall_fmap. apply Forall_take, Forall_drop.
    eapply Forall_impl; [done|]. intros r Hr. simpl in *.
    rewrite length_take, length_drop. lia.
Qed.

Lemma slice_bound_inside (n : nat) (k : Z) :
  (0 ≤ k ≤ Z.of_nat n)%Z → slice_bound n k = Z.to_nat k.
Proof. intros Hk. unfold slice_bound. case_decide; lia. Qed.

Lemma outcome_np_slice_whole (l : loc) (ystart ystop xstart xstop : Z) w
    (Q : world → handle → Prop) E :
  match pixels_of w (Handle l None) with
  | Some img =>
      Q w (Handle l (Some (slice_bound (nrows img) ystart, slice_bound (nrows img) ystop,
                           slice_bound (ncols img) xstart, slice_bound (ncols img) xstop)))
  | None => E w TypeError
  end →
  outcome (np_slice (Handle l None) ystart ystop xstart xstop) w Q E.
Proof.
  intros HQ. apply outcome_bind, outcome_read_image.
  destruct (pixels_of w (Handle l None)) as [img|]; [|done].
  by apply outcome_ret.
Qed.

Lemma py_int_grows (n : nat) (zoom_factor : R) :
  1 < zoom_factor → (Z.of_nat n ≤ py_int (IZR (Z.of_nat n) * zoom_factor))%Z.
Proof.
  intros Hz. assert (0 <= IZR (Z.of_nat n)) by (apply IZR_le; lia).
  unfold py_int. destruct (Rle_dec 0 (IZR (Z.of_nat n) * zoom_factor)) as [_|Hneg].
  - apply Zfloor_lub. nra.
  - exfalso. apply Hneg. nra.
Qed.

Lemma centre_crop_bounds (new_height height : Z) :
  (0 ≤ height ≤ new_height)%Z →
  (0 ≤ (new_height - height) `div` 2
   ∧ (new_height - height) `div` 2 + height ≤ new_height)%Z.
Proof. intros Hh. Z.div_mod_to_equations. lia. Qed.

(** Zooming in: the resized image is at least as large as the source and
    the centre crop is a view of it with the shape of the source. *)
Lemma apply_zoom_in_returns image depth_map (zoom_factor : R) w img h wd :
  1 < zoom_factor →
  pixels_of w image = Some img → rect h wd img → h ≠ 0%nat → wd ≠ 0%nat →
  returns (_apply_zoom image depth_map zoom_factor) w
    (λ w' frame, heap w ⊆ heap w'
                 ∧ ∃ px, pixels_of w' frame = Some px ∧ rect h wd px).
Proof.
  intros Hz Himg Hri Hh Hw. unfold returns, _apply_zoom.
  apply outcome_bind, outcome_read_image. rewrite Himg.
  rewrite (rect_nrows _ _ _ Hri), (rect_ncols _ _ _ Hri Hh).
  pose proof (py_int_grows h zoom_factor Hz) as Hnh.
  pose proof (py_int_grows wd zoom_factor Hz) as Hnw.
  set (new_height := py_int (IZR (Z.of_nat h) * zoom_factor)) in *.
  set (new_width := py_int (IZR (Z.of_nat wd) * zoom_factor)) in *.
  apply outcome_bind. unfold cv2_resize. apply outcome_new_image. rewrite Himg.
  unfold resize_px. rewrite decide_True
    by (rewrite (rect_nrows _ _ _ Hri), (rect_ncols _ _ _ Hri Hh); lia).
  set (zoomed_px := tabulate (Z.to_nat new_height) (Z.to_nat new_width) _).
  assert (Hzr : rect (Z.to_nat new_height) (Z.to_nat new_width) zoomed_px)
    by apply tabulate_rect.
  intros w1 zoomed Hzoomed.
  destruct (Rlt_dec 1.0 zoom_factor) as [_|Hnot]; [|lra].
  pose proof (new_image_heap _ _ _ _ Hzoomed) as Hsub.
  pose proof (new_image_pixels _ _ _ _ Hzoomed) as Hpx.
  destruct Hzoomed as (l & Hl & -> & Hw1).
  apply outcome_np_slice_whole. rewrite Hpx.
  split; [done|].
  destruct (centre_crop_bounds new_height (Z.of_nat h)) as [Hy0 Hy1]; [lia|].
  destruct (centre_crop_bounds new_width (Z.of_nat wd)) as [Hx0 Hx1]; [lia|].
  rewrite (rect_nrows _ _ _ Hzr), (rect_ncols _ _ _ Hzr) by lia.
  rewrite !slice_bound_inside by lia.
  exists (crop zoomed_px
            (Z.to_nat ((new_height - Z.of_nat h) `div` 2))
            (Z.to_nat ((new_height - Z.of_nat h) `div` 2 + Z.of_nat h))
            (Z.to_nat ((new_width - Z.of_nat wd) `div` 2))
            (Z.to_nat ((new_width - Z.of_nat wd) `div` 2 + Z.of_nat wd))).
  split.
  - unfold pixels_of. rewrite Hw1. cbn [heap h_loc h_window].
    by rewrite lookup_insert_eq.
  - 
    replace h with (Z.to_nat ((new_height - Z.of_nat h) `div` 2 + Z.of_nat h)
                    - Z.to_nat ((new_height - Z.of_nat h) `div` 2))%nat at 1 by lia.
    replace wd with (Z.to_nat ((new_width - Z.of_nat wd) `div` 2 + Z.of_nat wd)
                     - Z.to_nat ((new_width - Z.of_nat wd) `div` 2))%nat at 1 by lia.
    apply (crop_rect _ (Z.to_nat new_height) (Z.to_nat new_width)); [done | lia | lia].
Qed.

End ZoomIn.
Section FrameLoop.
Implicit Types (w : world) (image depth_map frame : handle) (img : rgb_image)
  (depth : grid R) (body : Z → M handle) (frames : list handle).

Lemma returns_weaken {A} (m : M A) w (Q Q' : world → A → Prop) :
  returns m w Q → (∀ w' a, Q w' a → Q' w' a) → returns m w Q'.
Proof. intros Hm HQ. by apply (outcome_weaken m w Q _ (λ _ _, False)). Qed.

Lemma returns_bind {A B} (m : M A) (k : A → M B) w (Q : world → B → Prop) :
  returns m w (λ w1 a, returns (k a) w1 Q) → returns (m ≫= k) w Q.
Proof. apply outcome_bind. Qed.

Lemma returns_with_run {A} (m : M A) w (Q : world → A → Prop) :
  returns m w Q → returns m w (λ w' a, Q w' a ∧ m w = (w', Ok a)).
Proof.
  unfold returns, outcome. by destruct (m w) as [w' [a|e]].
Qed.

(** The loop returns when every pass does; [P] is what is known of each
    frame, [I] what the passes need. *)
Lemma frame_loop_returns body (indices : list Z)
    (I : world → Prop) (P : world → handle → Prop) :
  (∀ w w', heap w ⊆ heap w' → I w → I w') →
  (∀ w w' frame, heap w ⊆ heap w' → P w frame → P w' frame) →
  (∀ i w, I w → returns (body i) w (λ w' frame, heap w ⊆ heap w' ∧ P w' frame)) →
  ∀ frames w, I w → Forall (P w) frames →
    returns (frame_loop body indices frames) w
      (λ w' out, heap w ⊆ heap w'
                 ∧ length out = length frames + length indices
                 ∧ Forall (P w') out).
Proof.
  intros HI HP Hbody. induction indices as [|i rest IH]; intros frames w Hw Hframes; simpl.
  - apply outcome_ret. split; [done|]. split; [lia | done].
  - apply returns_bind. eapply returns_weaken; [by apply Hbody|].
    intros w1 frame [Hsub Hframe]. simpl.
    eapply returns_weaken.
    + apply IH; [by eapply HI|]. apply Forall_app. split.
      * eapply Forall_impl; [done|]. intros f. by apply HP.
      * by constructor.
    + intros w' out (Hsub' & Hlen & Hout). split; [by etrans|]. split; [|done].
      rewrite Hlen, length_app. simpl. lia.
Qed.

(** What the loop returned is what the passes returned, in index order. *)
Lemma frame_loop_rendered body (indices : list Z) frames w w' out :
  frame_loop body indices frames w = (w', Ok out) →
  ∃ new, out = frames ++ new ∧ rendered body indices w new w'.
Proof.
  revert frames w. induction indices as [|i rest IH]; intros frames w; simpl.
  - intros [= <- <-]. exists []. split; [by rewrite app_nil_r | constructor].
  - rewrite run_bind. destruct (body i w) as [w1 [frame|e]] eqn:Hbody; [|done].
    intros Hrest. destruct (IH _ _ Hrest) as (new & -> & Hnew).
    exists (frame :: new). split; [by rewrite <- app_assoc|].
    by econstructor.
Qed.

Lemma rendered_length body (indices : list Z) w frames w' :
  rendered body indices w frames w' → length frames = length indices.
Proof. induction 1; simpl; congruence. Qed.

(** Whatever the passes do, the buffers that were there stay as they were
    and the frames are buffers of their own, all different. *)
Lemma frame_loop_fresh body (indices : list Z) w0 :
  (∀ i w, outcome (body i) w (fresh_handle w) (λ w' _, heap w ⊆ heap w')) →
  ∀ frames w,
    heap w0 ⊆ heap w →
    NoDup (h_loc <$> frames) →
    Forall (λ frame, heap w0 !! h_loc frame = None ∧ is_Some (heap w !! h_loc frame)) frames →
    outcome (frame_loop body indices frames) w
      (λ w' out, heap w0 ⊆ heap w'
                 ∧ NoDup (h_loc <$> out)
                 ∧ Forall (λ frame, heap w0 !! h_loc frame = None
                                    ∧ is_Some (heap w' !! h_loc frame)) out)
      (λ w' _, heap w0 ⊆ heap w').
Proof.
  intros Hbody. induction indices as [|i rest IH]; intros frames w Hsub Hdup Hframes; simpl.
  - by apply outcome_ret.
  - apply outcome_bind. eapply outcome_weaken; [apply Hbody| |].
    + intros w1 frame (Hsub1 & Hnone & Hsome). simpl. apply IH.
      * by etrans.
      * rewrite fmap_app. simpl. apply NoDup_app. split; [done|]. split.
        -- intros l Hl ->%list_elem_of_singleton.
           apply list_elem_of_fmap in Hl as (f & Hf & Hin).
           rewrite Forall_forall in Hframes. destruct (Hframes f Hin) as [_ [b Hb]].
           rewrite Hf in Hnone. congruence.
        -- apply NoDup_singleton.
      * apply Forall_app. split.
        -- eapply Forall_impl; [done|]. intros f [Hf0 [b Hb]]. split; [done|].
           exists b. by eapply lookup_weaken.
        -- constructor; [|done]. split; [|done].
           destruct (heap w0 !! h_loc frame) as [b|] eqn:Hb; [|done].
           by rewrite (lookup_weaken _ _ _ _ Hb Hsub) in Hnone.
    + intros w1 e Hsub1. simpl in *. by etrans.
Qed.

Lemma render_frame_fresh image depth_map effect (intensity phase : R) w :
  outcome (render_frame image depth_map effect intensity phase) w
    (fresh_handle w) (λ w' _, heap w ⊆ heap w').
Proof.
  unfold render_frame. destruct (motion_params effect phase intensity).
  - apply apply_parallax_fresh.
  - apply apply_zoom_fresh.
  - apply outcome_np_copy. destruct (pixels_of w image); [|done].
    intros w' c. apply new_image_fresh.
Qed.

End FrameLoop.
Section Frames.
Implicit Types (w : world) (image depth_map frame : handle) (img : rgb_image)
  (depth : grid R) (frames : list handle).

Lemma studio_image : pixels_of studio image_h = Some poster.
Proof.
  unfold pixels_of, studio, image_h. cbn [heap h_loc h_window].
  rewrite lookup_insert_ne by done. by rewrite lookup_insert_eq.
Qed.

Lemma studio_depth : depth_of studio depth_h = Some ramp.
Proof.
  unfold depth_of, studio, depth_h. cbn [heap h_loc h_window].
  by rewrite lookup_insert_eq.
Qed.

Lemma red_studio_image : pixels_of red_studio image_h = Some red_square.
Proof.
  unfold pixels_of, red_studio, image_h. cbn [heap h_loc h_window].
  rewrite lookup_insert_ne by done. by rewrite lookup_insert_eq.
Qed.

Lemma red_square_rows : nrows red_square = 100.
Proof. unfold nrows, red_square, uniform. apply length_replicate. Qed.

(** C4.  The claim wants a W x H frame from the scalar warp for every zoom
    factor, also below 1.  On a 100 x 100 image with zoom factor 0.9 the
    code resizes to 90 x 90, computes [y_offset = x_offset = (90 - 100) // 2
    = -5], and passes these negative borders to [cv2.copyMakeBorder], which
    rejects them: the warp raises [cv2.error] and returns no frame. *)
Theorem zoom_out_raises_cv_error :
  (_apply_zoom image_h depth_h 0.9 red_studio).2 = Raise CvError.
Proof.
  pose proof (apply_zoom_out_raises image_h depth_h 0.9 red_studio red_square
                red_studio_image) as Hout.
  assert (Hsmall : (py_int (INR (nrows red_square) * 0.9) < Z.of_nat (nrows red_square))%Z).
  { rewrite red_square_rows, INR_IZR_INZ.
    change (Z.of_nat 100) with 100%Z.
    rewrite (py_int_floor _ 90); [done | lra | lra]. }
  unfold outcome in Hout.
  destruct (_apply_zoom image_h depth_h 0.9 red_studio) as [w' [frame|e]]; simpl.
  - exfalso. apply Hout; [lra | left; apply Hsmall].
  - f_equal. apply Hout; [lra | left; apply Hsmall].
Qed.

Lemma render_frame_other image depth_map effect (intensity phase : R) :
  effect ≠ "parallax" → effect ≠ "zoom" → effect ≠ "sway" →
  render_frame image depth_map effect intensity phase = np_copy image.
Proof.
  intros. unfold render_frame. by rewrite motion_params_other.
Qed.

(** The hypotheses of a run of the loop: the handles show an image and a
    depth map in [w]. *)
Lemma inputs_extend image depth_map img depth w w' :
  heap w ⊆ heap w' →
  pixels_of w image = Some img ∧ depth_of w depth_map = Some depth →
  pixels_of w' image = Some img ∧ depth_of w' depth_map = Some depth.
Proof.
  intros Hsub [Hi Hd]. split; [by eapply pixels_of_extend | by eapply depth_of_extend].
Qed.

Lemma generate_parallax_frames_returns image depth_map (num_frames : Z) effect
    (intensity : R) w img (I : world → Prop) (P : world → handle → Prop) :
  pixels_of w image = Some img →
  (∀ w w', heap w ⊆ heap w' → I w → I w') →
  (∀ w w' frame, heap w ⊆ heap w' → P w frame → P w' frame) →
  (∀ i w, I w →
     returns (render_frame image depth_map effect intensity (phase_of i num_frames)) w
       (λ w' frame, heap w ⊆ heap w' ∧ P w' frame)) →
  I w →
  returns (generate_parallax_frames image depth_map num_frames effect intensity) w
    (λ w' frames,
       heap w ⊆ heap w'
       ∧ length frames = Z.to_nat num_frames
       ∧ Forall (P w') frames
       ∧ rendered (λ i, render_frame image depth_map effect intensity
                          (phase_of i num_frames))
                  (seqZ 0 num_frames) w frames w').
Proof.
  intros Himg HI HP Hbody Hw. unfold generate_parallax_frames.
  apply returns_bind, outcome_read_image. rewrite Himg.
  eapply returns_weaken.
  - apply returns_with_run.
    by apply (frame_loop_returns _ (seqZ 0 num_frames) I P HI HP Hbody [] w Hw).
  - intros w' frames [(Hsub & Hlen & Hall) Hrun]. simpl in *.
    rewrite length_seqZ in Hlen.
    apply frame_loop_rendered in Hrun as (new & -> & Hnew).
    by repeat split.
Qed.

(** C8.  When the effect is none of 'parallax', 'zoom', 'sway', then for
    every frame count, intensity and depth map, the loop returns
    [num_frames] frames and each of them shows exactly the pixels of the
    source image. *)
Theorem identity_effect_copies_source image depth_map (num_frames : Z) effect
    (intensity : R) w img :
  effect ≠ "parallax" → effect ≠ "zoom" → effect ≠ "sway" →
  pixels_of w image = Some img →
  returns (generate_parallax_frames image depth_map num_frames effect intensity) w
    (λ w' frames, length frames = Z.to_nat num_frames
                  ∧ Forall (λ frame, pixels_of w' frame = Some img) frames).
Proof.
  intros Hp Hz Hs Himg.
  eapply returns_weaken.
  - apply (generate_parallax_frames_returns image depth_map num_frames effect intensity
             w img (λ w, pixels_of w image = Some img)
             (λ w frame, pixels_of w frame = Some img)); try done.
    + intros w1 w2 Hsub. by apply pixels_of_extend.
    + intros w1 w2 frame Hsub. by apply pixels_of_extend.
    + intros i w1 Hw1. rewrite render_frame_other by done.
      apply outcome_np_copy. rewrite Hw1. intros w2 c Hnew.
      split; [by eapply new_image_heap | by eapply new_image_pixels].
  - intros w' frames (_ & Hlen & Hall & _). done.
Qed.

Lemma identity_effect_on_poster :
  returns (generate_parallax_frames image_h depth_h 3 "none" 1) studio
    (λ w' frames, length frames = Z.to_nat 3
                  ∧ Forall (λ frame, pixels_of w' frame = Some poster) frames).
Proof.
  apply identity_effect_copies_source; [done | done | done | apply studio_image].
Defined.

Local Open Scope R_scope.




End Frames.
Section Schedule.
Implicit Types (w : world) (image depth_map frame : handle) (img : rgb_image)
  (depth : grid R) (frames : list handle).

(** C10.  Frame generation never modifies its inputs: for every effect,
    frame count and intensity, and whether the loop returns or a warp
    raises, the image and the depth map show after the call what they showed
    before it, and so does every other buffer that existed; each returned
    frame lives in a buffer that did not exist before the call, and no two
    frames share a buffer. *)
Theorem frames_leave_inputs_untouched image depth_map (num_frames : Z) effect
    (intensity : R) w img depth :
  pixels_of w image = Some img → depth_of w depth_map = Some depth →
  outcome (generate_parallax_frames image depth_map num_frames effect intensity) w
    (λ w' frames,
       pixels_of w' image = Some img ∧ depth_of w' depth_map = Some depth
       ∧ heap w ⊆ heap w'
       ∧ NoDup (h_loc <$> frames)
       ∧ Forall (λ frame, heap w !! h_loc frame = None
                          ∧ is_Some (heap w' !! h_loc frame)) frames)
    (λ w' _,
       pixels_of w' image = Some img ∧ depth_of w' depth_map = Some depth
       ∧ heap w ⊆ heap w').
Proof.
  intros Himg Hdepth. unfold generate_parallax_frames.
  apply outcome_bind, outcome_read_image. rewrite Himg.
  eapply outcome_weaken.
  - apply (frame_loop_fresh _ (seqZ 0 num_frames) w); try done.
    + intros i w1. apply render_frame_fresh.
    + constructor.
  - intros w' frames (Hsub & Hdup & Hall). simpl.
    split; [by eapply pixels_of_extend|]. split; [by eapply depth_of_extend|]. done.
  - intros w' e Hsub. simpl in *.
    split; [by eapply pixels_of_extend|]. split; [by eapply depth_of_extend|]. done.
Qed.

Lemma poster_inputs_untouched :
  outcome (generate_parallax_frames image_h depth_h 5 "zoom" 1) studio
    (λ w' frames,
       pixels_of w' image_h = Some poster ∧ depth_of w' depth_h = Some ramp
       ∧ heap studio ⊆ heap w'
       ∧ NoDup (h_loc <$> frames)
       ∧ Forall (λ frame, heap studio !! h_loc frame = None
                          ∧ is_Some (heap w' !! h_loc frame)) frames)
    (λ w' _,
       pixels_of w' image_h = Some poster ∧ depth_of w' depth_h = Some ramp
       ∧ heap studio ⊆ heap w').
Proof.
  apply frames_leave_inputs_untouched; [apply studio_image | apply studio_depth].
Defined.

Local Open Scope R_scope.

Lemma frame_count_nonneg (duration : R) (fps : Z) :
  0 < duration → (0 < fps)%Z → (0 ≤ frame_count duration fps)%Z.
Proof.
  intros Hd Hf. unfold frame_count, py_int.
  assert (0 < duration * IZR fps).
  { apply Rmult_lt_0_compat; [done|]. by apply IZR_lt. }
  destruct (Rle_dec 0 (duration * IZR fps)); [|lra].
  apply (Zfloor_lub 0). lra.
Qed.

(** For 'parallax', 'sway' and the fallback, a pass returns a frame of the
    shape of the source at every phase and intensity. *)
Lemma render_frame_returns image depth_map effect (intensity phase : R) w img depth h wd :
  effect ≠ "zoom" →
  rect h wd img → rect h wd depth → h ≠ 0%nat → wd ≠ 0%nat →
  pixels_of w image = Some img ∧ depth_of w depth_map = Some depth →
  returns (render_frame image depth_map effect intensity phase) w
    (λ w' frame, heap w ⊆ heap w'
                 ∧ ∃ px, pixels_of w' frame = Some px ∧ rect h wd px).
Proof.
  intros Hnz Hri Hrd Hh Hw [Himg Hdepth]. unfold render_frame, motion_params.
  assert (Hwarp : ∀ offset_x offset_y,
    returns (_apply_parallax image depth_map offset_x offset_y) w
      (λ w' frame, heap w ⊆ heap w'
                   ∧ ∃ px, pixels_of w' frame = Some px ∧ rect h wd px)).
  { intros offset_x offset_y.
    eapply returns_weaken; [by eapply apply_parallax_returns|].
    intros w' frame (px & Hnew & Hpx).
    split; [by eapply new_image_heap|]. exists px.
    split; [by eapply new_image_pixels | done]. }
  repeat case_decide; try done.
  apply outcome_np_copy. rewrite Himg. intros w' c Hnew.
  split; [by eapply new_image_heap|]. exists img.
  split; [by eapply new_image_pixels | done].
Qed.

(** C3, amended.  For every duration > 0 and fps > 0 the frame count is
    [N = int(duration * fps)], truncated towards zero, and not negative; the
    loop run with it on a non-empty image and a depth map of the same shape,
    for 'parallax', 'sway' or the fallback effect, returns exactly N frames,
    each of the shape of the source, and they are what the passes at phase
    (i / N) * 2 pi returned for i = 0, ..., N - 1, in that order. *)
Theorem frames_in_index_order (duration : R) (fps : Z) image depth_map effect
    (intensity : R) w img depth h wd :
  0 < duration → (0 < fps)%Z → effect ≠ "zoom" →
  pixels_of w image = Some img → depth_of w depth_map = Some depth →
  rect h wd img → rect h wd depth → h ≠ 0%nat → wd ≠ 0%nat →
  (0 ≤ frame_count duration fps)%Z
  ∧ returns (generate_parallax_frames image depth_map (frame_count duration fps)
               effect intensity) w
      (λ w' frames,
         length frames = Z.to_nat (frame_count duration fps)
         ∧ Forall (λ frame, ∃ px, pixels_of w' frame = Some px ∧ rect h wd px) frames
         ∧ rendered (λ i, render_frame image depth_map effect intensity
                            (phase_of i (frame_count duration fps)))
                    (seqZ 0 (frame_count duration fps)) w frames w').
Proof.
  intros Hd Hf Hnz Himg Hdepth Hri Hrd Hh Hw.
  split; [by apply frame_count_nonneg|].
  eapply returns_weaken.
  - apply (generate_parallax_frames_returns image depth_map _ effect intensity
             w img (λ w, pixels_of w image = Some img ∧ depth_of w depth_map = Some depth)
             (λ w frame, ∃ px, pixels_of w frame = Some px ∧ rect h wd px)); try done.
    + intros w1 w2. apply inputs_extend.
    + intros w1 w2 frame Hsub (px & Hpx & Hrect). exists px.
      split; [by eapply pixels_of_extend | done].
    + intros i w1 Hw1. by eapply render_frame_returns.
  - intros w' frames (_ & Hlen & Hall & Hrendered). done.
Qed.

Lemma default_schedule_in_order :
  (0 ≤ frame_count 4.0 24)%Z
  ∧ returns (generate_parallax_frames image_h depth_h (frame_count 4.0 24)
               "parallax" 1) studio
      (λ w' frames,
         length frames = Z.to_nat (frame_count 4.0 24)
         ∧ Forall (λ frame, ∃ px, pixels_of w' frame = Some px ∧ rect 2 2 px) frames
         ∧ rendered (λ i, render_frame image_h depth_h "parallax" 1
                            (phase_of i (frame_count 4.0 24)))
                    (seqZ 0 (frame_count 4.0 24)) studio frames w').
Proof.
  apply (frames_in_index_order 4.0 24 image_h depth_h "parallax" 1 studio poster ramp 2 2);
    [lra | done | done | apply studio_image | apply studio_depth
    | apply poster_rect | apply ramp_rect | done | done].
Defined.

End Schedule.
Section Pipeline.
Implicit Types (w : world) (env : collaborators) (img : rgb_image).









End Pipeline.
Section EmptySchedule.
Implicit Types (w : world) (env : collaborators) (img : rgb_image).


Lemma normalize_ramp :
  normalize_depth ramp = Ok (map (map (λ v, ((v - 0) / (1 - 0))%R)) ramp).
Proof. unfold normalize_depth. by rewrite ramp_min, ramp_max. Qed.





End EmptySchedule.

Section NormalisationLaws.
Local Open Scope R_scope.

Lemma array_min_monotone (f : R → R) (a : grid R) (lo : R) :
  (∀ x y, x <= y → f x <= f y) →
  array_min a = Ok lo → array_min (map (map f) a) = Ok (f lo).
Proof.
  intros Hf. unfold array_min. rewrite concat_map_map.
  destruct (concat a) as [|x xs]; [done|]. intros [= <-]. simpl.
  by rewrite (foldl_Rmin_monotone f).
Qed.

Lemma array_max_monotone (f : R → R) (a : grid R) (hi : R) :
  (∀ x y, x <= y → f x <= f y) →
  array_max a = Ok hi → array_max (map (map f) a) = Ok (f hi).
Proof.
  intros Hf. unfold array_max. rewrite concat_map_map.
  destruct (concat a) as [|x xs]; [done|]. intros [= <-]. simpl.
  by rewrite (foldl_Rmax_monotone f).
Qed.

Lemma map_map_ext {A B} (f g : A → B) (a : grid A) :
  (∀ x, f x = g x) → map (map f) a = map (map g) a.
Proof.
  intros Hfg. apply map_ext. intros r. by apply map_ext.
Qed.

Lemma map_map_compose {A B C} (f : A → B) (g : B → C) (a : grid A) :
  map (map g) (map (map f) a) = map (map (λ x, g (f x))) a.
Proof.
  rewrite map_map. apply map_ext. intros r. by rewrite map_map.
Qed.

Lemma map_map_id {A} (f : A → A) (a : grid A) :
  (∀ x, f x = x) → map (map f) a = a.
Proof.
  intros Hf. rewrite <- (map_id a) at 2. apply map_ext. intros r.
  rewrite <- (map_id r) at 2. by apply map_ext.
Qed.


(** X2.  In exact arithmetic the normalised field does not depend on the
    unit or the origin of the raw depth: for a raw field with [min < max],
    replacing every value [v] by [a * v + b] with [a > 0] gives the same
    normalised field. *)
Theorem normalize_depth_affine (raw : grid R) (lo hi a b : R) :
  array_min raw = Ok lo → array_max raw = Ok hi → lo < hi → 0 < a →
  normalize_depth (map (map (λ v, a * v + b)) raw) = normalize_depth raw.
Proof.
  intros Hlo Hhi Hrange Ha.
  assert (Hf : ∀ x y, x <= y → a * x + b <= a * y + b) by (intros; nra).
  unfold normalize_depth.
  rewrite (array_min_monotone _ raw lo Hf Hlo), (array_max_monotone _ raw hi Hf Hhi).
  rewrite Hlo, Hhi. f_equal. rewrite map_map_compose.
  assert (0 < a * (hi - lo)) by (apply Rmult_lt_0_compat; lra).
  apply map_map_ext. intros v. simpl. field. split; lra.
Qed.

Lemma ramp_affine :
  normalize_depth (map (map (λ v, 2 * v + 3)) ramp) = normalize_depth ramp.
Proof.
  apply (normalize_depth_affine ramp 0 1 2 3); [apply ramp_min | apply ramp_max | lra | lra].
Defined.

(** X3.  In exact arithmetic normalisation is idempotent: normalising the
    normalised field of a raw field with [min < max] returns it unchanged. *)
Theorem normalize_depth_idempotent (raw normalized : grid R) (lo hi : R) :
  array_min raw = Ok lo → array_max raw = Ok hi → lo < hi →
  normalize_depth raw = Ok normalized →
  normalize_depth normalized = Ok normalized.
Proof.
  intros Hlo Hhi Hrange. unfold normalize_depth at 1. rewrite Hlo, Hhi.
  intros [= <-].
  set (f := λ v : R, (v - lo) / (hi - lo)).
  assert (Hf : ∀ x y, x <= y → f x <= f y).
  { intros x y Hxy. unfold f. apply Rmult_le_compat_r; [|lra].
    apply Rlt_le, Rinv_0_lt_compat. lra. }
  unfold normalize_depth.
  rewrite (array_min_monotone f raw lo Hf Hlo), (array_max_monotone f raw hi Hf Hhi).
  f_equal. apply map_map_id. intros v. simpl. unfold f. field. lra.
Qed.

Lemma ramp_idempotent :
  normalize_depth (map (map (λ v, (v - 0) / (1 - 0))) ramp)
  = Ok (map (map (λ v, (v - 0) / (1 - 0))) ramp).
Proof.
  apply (normalize_depth_idempotent ramp _ 0 1);
    [apply ramp_min | apply ramp_max | lra | apply normalize_ramp].
Defined.

End NormalisationLaws.
Section MotionBounds.
Local Open Scope R_scope.

Lemma scaled_sine_bound (s amplitude intensity : R) :
  -1 <= s <= 1 → 0 <= amplitude →
  Rabs (s * amplitude * intensity) <= amplitude * Rabs intensity.
Proof.
  intros Hs Ha. rewrite !Rabs_mult, (Rabs_right amplitude) by lra.
  assert (Rabs s <= 1) by (apply Rabs_le; lra).
  pose proof (Rabs_pos intensity).
  replace (amplitude * Rabs intensity) with (1 * amplitude * Rabs intensity) by lra.
  apply Rmult_le_compat_r; [done|]. apply Rmult_le_compat_r; lra.
Qed.

(** X4.  The motion parameters are bounded by the intensity, at every
    phase: parallax offsets stay within 20 and 10 times |intensity|, the
    sway offset within 15 times |intensity| with no vertical part, and the
    zoom factor within 0.1 times |intensity| of 1; any other effect asks
    for no motion. *)
Theorem motion_params_bounded (effect : string) (phase intensity : R) :
  match motion_params effect phase intensity with
  | Offsets offset_x offset_y =>
      if decide (effect = "parallax") then
        Rabs offset_x <= 20 * Rabs intensity ∧ Rabs offset_y <= 10 * Rabs intensity
      else
        Rabs offset_x <= 15 * Rabs intensity ∧ offset_y = 0
  | ZoomFactor zoom_factor => Rabs (zoom_factor - 1) <= 0.1 * Rabs intensity
  | Still => effect ≠ "parallax" ∧ effect ≠ "zoom" ∧ effect ≠ "sway"
  end.
Proof.
  pose proof (SIN_bound phase) as Hsin.
  pose proof (COS_bound (phase * 0.5)) as Hcos.
  unfold motion_params. repeat case_decide; try done.
  - split; apply scaled_sine_bound; lra.
  - replace (1.0 + sin phase * 0.1 * intensity - 1) with (sin phase * 0.1 * intensity) by lra.
    apply scaled_sine_bound; lra.
  - split; [|done]. apply scaled_sine_bound; lra.
Qed.

(** X5.  The phases of a loop of N > 0 frames start at 0, grow strictly with
    the frame index, and stay below 2 pi. *)
Theorem phase_schedule (i j num_frames : Z) :
  (0 ≤ i)%Z → (i < j)%Z → (j < num_frames)%Z →
  phase_of 0 num_frames = 0
  ∧ 0 <= phase_of i num_frames
  ∧ phase_of i num_frames < phase_of j num_frames
  ∧ phase_of j num_frames < 2 * PI.
Proof.
  intros Hi Hij Hj. pose proof PI_RGT_0 as Hpi.
  assert (HN : 0 < IZR num_frames) by (apply IZR_lt; lia).
  assert (Hi' : 0 <= IZR i) by (apply IZR_le; lia).
  assert (Hij' : IZR i < IZR j) by (by apply IZR_lt).
  assert (Hj' : IZR j < IZR num_frames) by (by apply IZR_lt).
  assert (Hdiv : ∀ x y, x < y → x / IZR num_frames < y / IZR num_frames).
  { intros x y Hxy. apply Rmult_lt_compat_r; [|done]. by apply Rinv_0_lt_compat. }
  unfold phase_of. split; [lra|]. split; [|split].
  - assert (0 <= IZR i / IZR num_frames); [|nra].
    apply Rmult_le_pos; [done|]. apply Rlt_le. by apply Rinv_0_lt_compat.
  - pose proof (Hdiv _ _ Hij'). nra.
  - pose proof (Hdiv _ _ Hj') as Hlt.
    replace (IZR num_frames / IZR num_frames) with 1 in Hlt by (field; lra). nra.
Qed.

Lemma phase_schedule_example :
  phase_of 0 96 = 0
  ∧ 0 <= phase_of 24 96
  ∧ phase_of 24 96 < phase_of 95 96
  ∧ phase_of 95 96 < 2 * PI.
Proof. apply phase_schedule; lia. Defined.

End MotionBounds.
Section FieldWarpLaws.
Local Open Scope R_scope.
Implicit Types (w : world) (image depth_map : handle) (img : rgb_image) (depth : grid R).

(** The entries of the sampling maps, for an image and a depth map of the
    same shape. *)
Lemma displacement_maps_entries img depth (offset_x offset_y : R) h wd map_x map_y :
  rect h wd img → rect h wd depth →
  displacement_maps img depth offset_x offset_y = Ok (map_x, map_y) →
  ∀ i j, (i < h)%nat → (j < wd)%nat →
    at2 map_x i j = Rmin (Rmax (INR j + at2 depth i j * offset_x) 0) (INR wd - 1)
    ∧ at2 map_y i j = Rmin (Rmax (INR i + at2 depth i j * offset_y) 0) (INR h - 1).
Proof.
  intros Himg Hdepth Hmaps i j Hi Hj.
  assert (Hh : h ≠ 0%nat) by lia.
  revert Hmaps. unfold displacement_maps, meshgrid_ij.
  rewrite (rect_nrows _ _ _ Himg), (rect_ncols _ _ _ Himg Hh).
  rewrite !(broadcast2_same_shape Rplus h wd) by (apply tabulate_rect || by apply rect_map).
  rewrite decide_False by done. intros [= <- <-]. unfold clip, scale.
  rewrite !(at2_map _ h wd) by (done || apply tabulate_rect).
  rewrite !at2_tabulate by done.
  by rewrite !(at2_map _ h wd) by done.
Qed.

Lemma clip_moves_inwards (v target lo hi : R) :
  lo <= target <= hi → Rabs (Rmin (Rmax v lo) hi - target) <= Rabs (v - target).
Proof.
  intros Ht. unfold Rmin, Rmax, Rabs.
  repeat destruct (Rle_dec _ _); repeat destruct (Rcase_abs _); lra.
Qed.

Lemma grid_point_inside (n k : nat) : (k < n)%nat → 0 <= INR k <= INR n - 1.
Proof.
  intros Hk. split; [apply pos_INR|].
  assert (INR k + 1 <= INR n); [|lra]. rewrite <- S_INR. apply le_INR. lia.
Qed.

(** X6.  In the field warp no pixel samples further from its own position
    than the offsets: for an image and a depth map of the same shape with
    depth values in [0, 1], every x' is within |offset_x| of its column and
    every y' within |offset_y| of its row. *)
Theorem displacement_bounded img depth (offset_x offset_y : R) h wd map_x map_y :
  rect h wd img → rect h wd depth →
  all_entries (λ d, 0 <= d <= 1) depth →
  displacement_maps img depth offset_x offset_y = Ok (map_x, map_y) →
  ∀ i j, (i < h)%nat → (j < wd)%nat →
    Rabs (at2 map_x i j - INR j) <= Rabs offset_x
    ∧ Rabs (at2 map_y i j - INR i) <= Rabs offset_y.
Proof.
  intros Himg Hdepth Hrange Hmaps i j Hi Hj.
  destruct (displacement_maps_entries img depth offset_x offset_y h wd map_x map_y
              Himg Hdepth Hmaps i j Hi Hj) as [-> ->].
  assert (Hd : 0 <= at2 depth i j <= 1).
  { destruct Hdepth as [Hlen Hrows]. unfold at2.
    destruct (lookup_lt_is_Some_2 depth i) as [r Hr]; [lia|].
    rewrite (list_lookup_total_correct _ _ _ Hr).
    assert (Hlr : length r = wd).
    { rewrite Forall_forall in Hrows. apply Hrows. by eapply list_elem_of_lookup_2. }
    destruct (lookup_lt_is_Some_2 r j) as [d Hdj]; [lia|].
    rewrite (list_lookup_total_correct _ _ _ Hdj).
    unfold all_entries in Hrange. rewrite Forall_forall in Hrange.
    assert (Hrr : Forall (λ d, 0 <= d <= 1) r)
      by (apply Hrange; by eapply list_elem_of_lookup_2).
    rewrite Forall_forall in Hrr. apply Hrr. by eapply list_elem_of_lookup_2. }
  assert (Hscaled : ∀ o, Rabs (at2 depth i j * o) <= Rabs o).
  { intros o. rewrite Rabs_mult, (Rabs_right (at2 depth i j)) by lra.
    pose proof (Rabs_pos o). nra. }
  split.
  - etrans; [apply clip_moves_inwards; by apply grid_point_inside|].
    replace (INR j + at2 depth i j * offset_x - INR j) with (at2 depth i j * offset_x) by lra.
    apply Hscaled.
  - etrans; [apply clip_moves_inwards; by apply grid_point_inside|].
    replace (INR i + at2 depth i j * offset_y - INR i) with (at2 depth i j * offset_y) by lra.
    apply Hscaled.
Qed.

Lemma ramp_in_unit_range : all_entries (λ d, 0 <= d <= 1) ramp.
Proof. unfold all_entries, ramp. repeat constructor; lra. Qed.

Lemma poster_displacement_bounded :
  ∃ map_x map_y,
    displacement_maps poster ramp 20 (-10) = Ok (map_x, map_y)
    ∧ ∀ i j, (i < 2)%nat → (j < 2)%nat →
        Rabs (at2 map_x i j - INR j) <= Rabs 20
        ∧ Rabs (at2 map_y i j - INR i) <= Rabs (-10).
Proof.
  destruct (displacement_maps_defined poster ramp 20 (-10) 2 2 poster_rect ramp_rect)
    as (map_x & map_y & Hmaps & _).
  exists map_x, map_y. split; [done|].
  apply (displacement_bounded poster ramp 20 (-10) 2 2 map_x map_y);
    [apply poster_rect | apply ramp_rect | apply ramp_in_unit_range | done].
Defined.

(** X7.  Where the depth is 0 the field warp leaves the picture as it is:
    for an image and a depth map of the same shape and any offsets, the
    frame has at every pixel of depth 0 the colour the source has there. *)
Theorem far_pixels_stay image depth_map (offset_x offset_y : R) w img depth h wd :
  pixels_of w image = Some img → depth_of w depth_map = Some depth →
  rect h wd img → rect h wd depth → h ≠ 0%nat → wd ≠ 0%nat →
  returns (_apply_parallax image depth_map offset_x offset_y) w
    (λ w' frame,
       ∃ px, pixels_of w' frame = Some px
             ∧ rect h wd px
             ∧ ∀ i j, (i < h)%nat → (j < wd)%nat →
                 at2 depth i j = 0 → at2 px i j = at2 img i j).
Proof.
  intros Himg Hdepth Hri Hrd Hh Hw. unfold returns, _apply_parallax.
  apply outcome_bind, outcome_read_image. rewrite Himg.
  apply outcome_bind, outcome_read_depth. rewrite Hdepth.
  destruct (displacement_maps_defined img depth offset_x offset_y h wd Hri Hrd)
    as (map_x & map_y & Hmaps & Hx & Hy).
  rewrite Hmaps. apply outcome_bind, outcome_lift. simpl.
  unfold cv2_remap. apply outcome_new_image. rewrite Himg.
  unfold remap_px.
  rewrite (rect_shape _ _ _ Hx Hh), (rect_shape _ _ _ Hy Hh).
  rewrite (rect_nrows _ _ _ Hx), (rect_ncols _ _ _ Hx Hh).
  rewrite (rect_nrows _ _ _ Hri), (rect_ncols _ _ _ Hri Hh).
  rewrite decide_True by done.
  intros w' frame Hnew. eexists. split; [by eapply new_image_pixels|].
  split; [apply tabulate_rect|].
  intros i j Hi Hj Hzero. rewrite at2_tabulate by done.
  destruct (displacement_maps_entries img depth offset_x offset_y h wd map_x map_y
              Hri Hrd Hmaps i j Hi Hj) as [-> ->].
  rewrite Hzero, !Rmult_0_l, !Rplus_0_r.
  rewrite !clip_inside by (by apply grid_point_inside).
  apply bilinear_grid.
  - by rewrite (rect_nrows _ _ _ Hri).
  - by rewrite (rect_ncols _ _ _ Hri Hh).
Qed.

Lemma far_pixels_stay_on_poster :
  returns (_apply_parallax image_h depth_h 20 (-10)) studio
    (λ w' frame,
       ∃ px, pixels_of w' frame = Some px
             ∧ rect 2 2 px
             ∧ ∀ i j, (i < 2)%nat → (j < 2)%nat →
                 at2 ramp i j = 0 → at2 px i j = at2 poster i j).
Proof.
  apply far_pixels_stay;
    [apply studio_image | apply studio_depth | apply poster_rect | apply ramp_rect
    | done | done].
Defined.



End FieldWarpLaws.
Section SolidColour.
Local Open Scope R_scope.
Implicit Types (w : world) (image depth_map : handle) (img : rgb_image) (depth : grid R).








End SolidColour.
Section WarpOutcomes.
Local Open Scope R_scope.
Implicit Types (w : world) (image depth_map : handle) (img : rgb_image) (depth : grid R).

(** X10.  The field warp returns a frame of the shape of the source, in a
    buffer that did not exist before, for an image and a depth map of the
    same non-empty shape and any offsets. *)
Theorem field_warp_keeps_size image depth_map (offset_x offset_y : R) w img depth h wd :
  pixels_of w image = Some img → depth_of w depth_map = Some depth →
  rect h wd img → rect h wd depth → h ≠ 0%nat → wd ≠ 0%nat →
  returns (_apply_parallax image depth_map offset_x offset_y) w
    (λ w' frame,
       fresh_handle w w' frame
       ∧ ∃ px, pixels_of w' frame = Some px ∧ rect h wd px).
Proof.
  intros Himg Hdepth Hri Hrd Hh Hw.
  eapply returns_weaken; [by eapply apply_parallax_returns|].
  intros w' frame (px & Hnew & Hpx).
  split; [by eapply new_image_fresh|]. exists px.
  split; [by eapply new_image_pixels | done].
Qed.

Lemma field_warp_on_poster :
  returns (_apply_parallax image_h depth_h 20 (-10)) studio
    (λ w' frame,
       fresh_handle studio w' frame
       ∧ ∃ px, pixels_of w' frame = Some px ∧ rect 2 2 px).
Proof.
  apply (field_warp_keeps_size image_h depth_h 20 (-10) studio poster ramp 2 2);
    [apply studio_image | apply studio_depth | apply poster_rect | apply ramp_rect
    | done | done].
Defined.

Lemma broadcast_dim_mismatch (a b : nat) :
  a ≠ b → a ≠ 1%nat → b ≠ 1%nat → broadcast_dim a b = None.
Proof. intros. unfold broadcast_dim. by rewrite !decide_False. Qed.

Lemma nrows_scale depth (s : R) : nrows (scale depth s) = nrows depth.
Proof. unfold nrows, scale. apply length_map. Qed.

Lemma ncols_scale depth (s : R) : ncols (scale depth s) = ncols depth.
Proof. unfold ncols, scale. destruct depth; [done|]. simpl. apply length_map. Qed.

(** X11.  A depth map that numpy cannot broadcast against the image makes
    the field warp raise ValueError before anything is allocated: when the
    row counts (or, for a non-empty image, the column counts) differ and
    neither is 1, the call raises and leaves the world as it was. *)
Theorem field_warp_shape_mismatch image depth_map (offset_x offset_y : R) w img depth :
  pixels_of w image = Some img → depth_of w depth_map = Some depth →
  (nrows img ≠ nrows depth ∧ nrows img ≠ 1%nat ∧ nrows depth ≠ 1%nat)
  ∨ (nrows img ≠ 0%nat
     ∧ ncols img ≠ ncols depth ∧ ncols img ≠ 1%nat ∧ ncols depth ≠ 1%nat) →
  _apply_parallax image depth_map offset_x offset_y w = (w, Raise ValueError).
Proof.
  intros Himg Hdepth Hshape.
  assert (Hread : read_image image w = (w, Ok img)).
  { revert Himg. unfold read_image, pixels_of.
    destruct (heap w !! h_loc image) as [[px|d]|]; [|done|done]. by intros [= ->]. }
  assert (Hreadd : read_depth depth_map w = (w, Ok depth)).
  { revert Hdepth. unfold read_depth, depth_of.
    destruct (heap w !! h_loc depth_map) as [[px|d]|]; [done| |done]. by intros [= ->]. }
  unfold _apply_parallax. rewrite run_bind, Hread, run_bind, Hreadd, run_bind.
  assert (Hmaps : displacement_maps img depth offset_x offset_y = Raise ValueError).
  { unfold displacement_maps, meshgrid_ij, broadcast2.
    rewrite !nrows_tabulate, !nrows_scale, !ncols_scale.
    destruct Hshape as [(Hr & Hr1 & Hr2) | (Hne & Hc & Hc1 & Hc2)].
    - by rewrite broadcast_dim_mismatch.
    - rewrite !ncols_tabulate by done.
      rewrite (broadcast_dim_mismatch (ncols img)) by done.
      by destruct (broadcast_dim (nrows img) (nrows depth)). }
  unfold lift. by rewrite Hmaps.
Qed.

Lemma field_warp_shape_mismatch_example :
  _apply_parallax image_h depth_h 20 (-10) mismatched_studio
  = (mismatched_studio, Raise ValueError).
Proof.
  apply (field_warp_shape_mismatch image_h depth_h 20 (-10) mismatched_studio poster ramp3).
  - unfold pixels_of, mismatched_studio, image_h. cbn [heap h_loc h_window].
    rewrite lookup_insert_ne by done. by rewrite lookup_insert_eq.
  - unfold depth_of, mismatched_studio, depth_h. cbn [heap h_loc h_window].
    by rewrite lookup_insert_eq.
  - left. simpl. lia.
Defined.

Lemma py_int_shrinks (n : nat) (zoom_factor : R) :
  n ≠ 0%nat → zoom_factor < 1 → (py_int (INR n * zoom_factor) < Z.of_nat n)%Z.
Proof.
  intros Hn Hz. assert (Hpos : 0 < INR n) by (apply lt_0_INR; lia).
  unfold py_int. destruct (Rle_dec 0 (INR n * zoom_factor)) as [Hge|Hlt].
  - apply lt_IZR. rewrite <- INR_IZR_INZ.
    pose proof (Zfloor_bound (INR n * zoom_factor)) as [Hfl _]. nra.
  - assert (Hfl : (0 ≤ Zfloor (- (INR n * zoom_factor)))%Z)
      by (apply (Zfloor_lub 0); lra).
    revert Hfl. generalize (Zfloor (- (INR n * zoom_factor))). clear -Hn.
    intros k Hk. lia.
Qed.

(** X12.  The scalar warp at a zoom factor of at least 1 returns a frame of
    the shape of the source, for every non-empty image; at exactly 1 it is
    a copy of the source. *)
Theorem zoom_in_keeps_size image depth_map (zoom_factor : R) w img h wd :
  1 <= zoom_factor →
  pixels_of w image = Some img → rect h wd img → h ≠ 0%nat → wd ≠ 0%nat →
  returns (_apply_zoom image depth_map zoom_factor) w
    (λ w' frame,
       heap w ⊆ heap w'
       ∧ ∃ px, pixels_of w' frame = Some px ∧ rect h wd px
               ∧ (zoom_factor = 1 → px = img)).
Proof.
  intros Hz Himg Hri Hh Hw. destruct (Rle_lt_or_eq_dec 1 zoom_factor Hz) as [Hlt|Heq].
  - eapply returns_weaken; [by eapply apply_zoom_in_returns|].
    intros w' frame (Hsub & px & Hpx & Hrect). split; [done|].
    exists px. split; [done|]. split; [done|]. intros Heq. lra.
  - eapply returns_weaken; [by eapply (apply_zoom_unit _ _ _ _ img h wd)|].
    intros w' frame (Hsub & Hpx & _). split; [done|]. by exists img.
Qed.

Lemma zoom_in_on_poster :
  returns (_apply_zoom image_h depth_h 1.1) studio
    (λ w' frame,
       heap studio ⊆ heap w'
       ∧ ∃ px, pixels_of w' frame = Some px ∧ rect 2 2 px
               ∧ (1.1 = 1 → px = poster)).
Proof.
  apply (zoom_in_keeps_size image_h depth_h 1.1 studio poster 2 2);
    [lra | apply studio_image | apply poster_rect | done | done].
Defined.

(** Every zoom factor below 1 makes the scalar warp raise [cv2.error]. *)
Lemma apply_zoom_below_one image depth_map (zoom_factor : R) w img :
  zoom_factor < 1 →
  pixels_of w image = Some img →
  outcome (_apply_zoom image depth_map zoom_factor) w
    (λ _ _, False) (λ _ e, e = CvError).
Proof.
  intros Hz Himg. destruct (decide (nrows img = 0%nat)) as [Hempty|Hne].
  - unfold _apply_zoom.
    apply outcome_bind, outcome_read_image. rewrite Himg.
    apply outcome_bind. unfold cv2_resize. apply outcome_new_image. rewrite Himg.
    unfold resize_px. rewrite decide_False; [done|]. tauto.
  - apply (apply_zoom_out_raises image depth_map zoom_factor w img Himg); [lra|].
    left. by apply py_int_shrinks.
Qed.

(** X13.  Zooming out never works: for every zoom factor below 1 and every
    image, the scalar warp raises [cv2.error] and returns no frame. *)
Theorem zoom_out_always_raises image depth_map (zoom_factor : R) w img :
  zoom_factor < 1 →
  pixels_of w image = Some img →
  (_apply_zoom image depth_map zoom_factor w).2 = Raise CvError.
Proof.
  intros Hz Himg.
  pose proof (apply_zoom_below_one image depth_map zoom_factor w img Hz Himg) as Hout.
  unfold outcome in Hout.
  destruct (_apply_zoom image depth_map zoom_factor w) as [w' [frame|e]]; simpl;
    [done | by rewrite Hout].
Qed.

Lemma zoom_out_on_poster :
  (_apply_zoom image_h depth_h 0.99 studio).2 = Raise CvError.
Proof.
  apply (zoom_out_always_raises image_h depth_h 0.99 studio poster);
    [lra | apply studio_image].
Defined.

End WarpOutcomes.
Section ZoomLoop.
Local Open Scope R_scope.
Implicit Types (w : world) (image depth_map : handle) (img : rgb_image)
  (body : Z → M handle) (frames : list handle).







End ZoomLoop.
Section Silence.
Implicit Types (w : world) (image depth_map : handle).












End Silence.
Section Encoder.
Implicit Types (w : world) (env : collaborators) (frames : list handle)
  (pictures : list rgb_image).

Lemma rgb2bgr_involutive (frame : rgb_image) : rgb2bgr (rgb2bgr frame) = frame.
Proof.
  unfold rgb2bgr. rewrite map_map_compose. apply map_map_id. by intros [r g b].
Qed.

Lemma read_image_run a w px :
  pixels_of w a = Some px → read_image a w = (w, Ok px).
Proof.
  unfold read_image, pixels_of.
  destruct (heap w !! h_loc a) as [[p|d]|]; [|done|done]. by intros [= ->].
Qed.

Lemma read_frames_run frames pictures w :
  Forall2 (λ frame px, pixels_of w frame = Some px) frames pictures →
  read_frames frames w = (w, Ok (rgb2bgr <$> pictures)).
Proof.
  induction 1 as [|frame px frames pictures Hpx _ IH]; simpl; [done|].
  by rewrite run_bind, (read_image_run _ _ _ Hpx), run_bind, IH.
Qed.

Lemma encode_video_result env frames pictures (output_path : string) (fps : Z) w :
  Forall2 (λ frame px, pixels_of w frame = Some px) frames pictures →
  encode_video env frames output_path fps w
  = match frames with
    | [] => (w, Raise IndexError)
    | _ :: _ =>
        if writer_opens env then
          (World (heap w)
                 (trace w ++ [VideoWritten output_path fps (rgb2bgr <$> pictures)])
                 (self_model w), Ok tt)
        else (w, Raise SystemExit)
    end.
Proof.
  intros Hframes. unfold encode_video.
  destruct Hframes as [|first px rest pictures' Hpx Hrest]; [done|].
  rewrite run_bind, (read_image_run _ _ _ Hpx).
  destruct (writer_opens env); [|done].
  rewrite run_bind, (read_frames_run (first :: rest) (px :: pictures')); [done|].
  by constructor.
Qed.

(** X16.  [encode_video] raises IndexError on an empty frame list; given
    frames, it exits when the writer does not open, without an event, and
    otherwise appends one video event that carries every frame once, in
    list order, with red and blue swapped, so that swapping them back gives
    the frames again; no buffer changes. *)
Theorem encode_video_outcome env frames pictures (output_path : string) (fps : Z) w :
  Forall2 (λ frame px, pixels_of w frame = Some px) frames pictures →
  encode_video env frames output_path fps w
  = match frames with
    | [] => (w, Raise IndexError)
    | _ :: _ =>
        if writer_opens env then
          (World (heap w)
                 (trace w ++ [VideoWritten output_path fps (rgb2bgr <$> pictures)])
                 (self_model w), Ok tt)
        else (w, Raise SystemExit)
    end
  ∧ rgb2bgr <$> (rgb2bgr <$> pictures) = pictures.
Proof.
  intros Hframes. split; [by apply encode_video_result|].
  rewrite <- list_fmap_compose. rewrite <- (list_fmap_id pictures) at 2.
  apply list_fmap_ext. intros _ px _. apply rgb2bgr_involutive.
Qed.

Lemma encode_video_on_poster :
  encode_video stub [image_h; image_h] "out.mp4" 24 studio
  = match [image_h; image_h] with
    | [] => (studio, Raise IndexError)
    | _ :: _ =>
        if writer_opens stub then
          (World (heap studio)
                 (trace studio ++ [VideoWritten "out.mp4" 24 (rgb2bgr <$> [poster; poster])])
                 (self_model studio), Ok tt)
        else (studio, Raise SystemExit)
    end
  ∧ rgb2bgr <$> (rgb2bgr <$> [poster; poster]) = [poster; poster].
Proof.
  apply encode_video_outcome. repeat constructor; apply studio_image.
Defined.

End Encoder.
Section Runs.
Implicit Types (w : world) (env : collaborators) (img : rgb_image) (depth : grid R)
  (image depth_map : handle) (frames : list handle) (pictures : list rgb_image).







(** X19.  The model is loaded once: when a model is already loaded, a run
    does not consult the model hub at all; it behaves exactly as it would
    with a hub that always fails. *)
Theorem generate_reuses_model env input_path output_dir effect (duration : R) (fps : Z)
    (intensity : R) w model :
  self_model w = Some model →
  generate env input_path output_dir effect duration fps intensity w
  = generate {| hub_load := None;
                open_input := open_input env;
                writer_opens := writer_opens env |}
      input_path output_dir effect duration fps intensity w.
Proof.
  intros Hmodel. destruct w as [hp tr md]. simpl in Hmodel. subst md.
  unfold generate. rewrite !(run_bind (emit _)). unfold emit.
  cbn [heap trace self_model].
  by rewrite !(run_bind (λ w, match self_model w with
                              | None => _
                              | Some _ => _
                              end)).
Qed.

Lemma generate_reuses_model_example :
  generate stub "poster.jpg" "out" "parallax" 4.0 24 1
    (World ∅ [] (Some (λ _, ramp)))
  = generate {| hub_load := None;
                open_input := open_input stub;
                writer_opens := writer_opens stub |}
      "poster.jpg" "out" "parallax" 4.0 24 1 (World ∅ [] (Some (λ _, ramp))).
Proof. by apply (generate_reuses_model _ _ _ _ _ _ _ _ (λ _, ramp)). Defined.

End Runs.
Section Slugs.
Import POC.
Implicit Types (l text : list ascii) (c : ascii) (strippable : ascii → bool).

Lemma is_dash_true c : is_dash c = true ↔ c = "-"%char.
Proof. unfold is_dash. apply bool_decide_eq_true. Qed.

Lemma is_dash_false c : is_dash c = false ↔ c ≠ "-"%char.
Proof. unfold is_dash. apply bool_decide_eq_false. Qed.

Lemma slug_char_not_dash c : slug_char c = true → c ≠ "-"%char.
Proof. intros Hc ->. by vm_compute in Hc. Qed.

Lemma slug_char_not_space c : slug_char c = true → is_space c = false.
Proof.
  unfold slug_char, is_space. rewrite bool_decide_eq_true, bool_decide_eq_false. lia.
Qed.

Lemma slug_char_lower c : slug_char c = true → lower_char c = c.
Proof.
  unfold slug_char, lower_char. rewrite bool_decide_eq_true. intros Hc.
  rewrite bool_decide_eq_false_2; [done | lia].
Qed.

Lemma single_dashes_cons c l :
  single_dashes (c :: l)
  ↔ (c = "-"%char → head l ≠ Some "-"%char) ∧ single_dashes l.
Proof.
  destruct l as [|c2 rest]; simpl; [naive_solver|].
  split.
  - intros [Hno Hrest]. split; [|done]. intros -> [= ->]. by apply Hno.
  - intros [Hno Hrest]. split; [|done]. intros [-> ->]. by apply Hno.
Qed.

Lemma lstrip_Forall strippable (Q : ascii → Prop) l :
  Forall Q l → Forall Q (lstrip strippable l).
Proof.
  induction 1 as [|c l Hc Hl IH]; simpl; [done|].
  destruct (strippable c); [done | by constructor].
Qed.

Lemma lstrip_single_dashes strippable l :
  single_dashes l → single_dashes (lstrip strippable l).
Proof.
  induction l as [|c l IH]; [done|]. intros Hl.
  cbn [lstrip]. destruct (strippable c); [|done].
  apply IH. by apply single_dashes_cons in Hl as [_ ?].
Qed.

Lemma lstrip_head strippable l c :
  head (lstrip strippable l) = Some c → strippable c = false.
Proof.
  induction l as [|c' l IH]; simpl; [done|].
  destruct (strippable c') eqn:Hc'; [done|]. by intros [= <-].
Qed.

Lemma lstrip_keeps strippable l :
  (∀ c, head l = Some c → strippable c = false) → lstrip strippable l = l.
Proof. destruct l as [|c l]; simpl; [done|]. intros Hc. by rewrite Hc. Qed.

Lemma rstrip_Forall strippable (Q : ascii → Prop) l :
  Forall Q l → Forall Q (rstrip strippable l).
Proof.
  induction 1 as [|c l Hc Hl IH]; simpl; [done|].
  destruct (rstrip strippable l) as [|k kept].
  - destruct (strippable c); [done | by constructor].
  - by constructor.
Qed.

Lemma rstrip_head strippable l c :
  head (rstrip strippable l) = Some c → head l = Some c.
Proof.
  destruct l as [|c' l]; simpl; [done|].
  destruct (rstrip strippable l); [by destruct (strippable c')|done].
Qed.

Lemma rstrip_single_dashes strippable l :
  single_dashes l → single_dashes (rstrip strippable l).
Proof.
  induction l as [|c l IH]; [done|]. intros Hl.
  apply single_dashes_cons in Hl as [Hc Hl]. specialize (IH Hl).
  cbn [rstrip]. pose proof (rstrip_head strippable l) as Hhead.
  destruct (rstrip strippable l) as [|k kept].
  - by destruct (strippable c).
  - apply single_dashes_cons. split; [|done].
    intros -> Hk. apply Hc; [done|]. by apply Hhead.
Qed.

Lemma rstrip_last strippable l c :
  last (rstrip strippable l) = Some c → strippable c = false.
Proof.
  induction l as [|c' l IH]; simpl; [done|].
  destruct (rstrip strippable l) as [|k kept].
  - destruct (strippable c') eqn:Hc'; [done|]. by intros [= <-].
  - intros Hlast. apply IH. exact Hlast.
Qed.

Lemma rstrip_keeps strippable l :
  (∀ c, last l = Some c → strippable c = false) → rstrip strippable l = l.
Proof.
  induction l as [|c l IH]; simpl; [done|]. intros Hlast.
  destruct l as [|c2 rest].
  - simpl. by rewrite Hlast.
  - rewrite IH; [done|]. intros k Hk. apply Hlast. exact Hk.
Qed.

Lemma strip_keeps strippable l :
  (∀ c, head l = Some c → strippable c = false) →
  (∀ c, last l = Some c → strippable c = false) →
  strip strippable l = l.
Proof.
  intros Hhead Hlast. unfold strip.
  rewrite (lstrip_keeps _ _ Hhead). by apply rstrip_keeps.
Qed.

Lemma sub_runs_chars in_run l :
  Forall (λ c, slug_char c = true ∨ c = "-"%char) (sub_runs in_run l).
Proof.
  revert in_run. induction l as [|c l IH]; intros in_run; simpl; [done|].
  destruct (slug_char c) eqn:Hc; [constructor; auto|].
  destruct in_run; [done|]. constructor; auto.
Qed.

Lemma sub_runs_single in_run l :
  single_dashes (sub_runs in_run l)
  ∧ (in_run = true → head (sub_runs in_run l) ≠ Some "-"%char).
Proof.
  revert in_run. induction l as [|c l IH]; intros in_run; simpl; [done|].
  destruct (slug_char c) eqn:Hc.
  - split.
    + apply single_dashes_cons. split; [|apply IH].
      intros ->. by vm_compute in Hc.
    + intros _ [= ->]. by vm_compute in Hc.
  - destruct in_run; [apply IH|]. split; [|done].
    apply single_dashes_cons. split; [|apply IH]. intros _. by apply IH.
Qed.

Lemma sub_runs_keeps in_run l :
  Forall (λ c, slug_char c = true ∨ c = "-"%char) l →
  single_dashes l →
  (in_run = true → head l ≠ Some "-"%char) →
  sub_runs in_run l = l.
Proof.
  intros Hchars. revert in_run.
  induction Hchars as [|c l Hc Hl IH]; intros in_run Hsingle Hhead; simpl; [done|].
  apply single_dashes_cons in Hsingle as [Hnext Hsingle].
  destruct Hc as [Hc | ->].
  - rewrite Hc. f_equal. by apply IH.
  - change (slug_char "-") with false. cbv iota.
    destruct in_run; [by exfalso; apply Hhead|].
    f_equal. apply IH; [done|]. intros _. by apply Hnext.
Qed.

Lemma poster_is_slug : is_slug (String.list_ascii_of_string "poster").
Proof.
  split; [done|]. split; [by repeat constructor; left; vm_compute|].
  split; [|done]. simpl. intuition congruence.
Qed.

(** The list form of [_slugify] always yields a slug. *)
Lemma slug_of_is_slug text : is_slug (slug_of text).
Proof.
  unfold slug_of.
  set (subbed := sub_runs false (map lower_char (strip is_space text))).
  assert (Hchars : Forall (λ c, slug_char c = true ∨ c = "-"%char) subbed)
    by apply sub_runs_chars.
  assert (Hsingle : single_dashes subbed) by apply sub_runs_single.
  pose proof (rstrip_Forall is_dash _ _ (lstrip_Forall is_dash _ _ Hchars)) as Hc.
  pose proof (rstrip_single_dashes is_dash _
                (lstrip_single_dashes is_dash _ Hsingle)) as Hs.
  pose proof (rstrip_head is_dash (lstrip is_dash subbed)) as Hh.
  pose proof (rstrip_last is_dash (lstrip is_dash subbed)) as Hl.
  pose proof (lstrip_head is_dash subbed) as Hlh.
  fold (strip is_dash subbed) in Hc, Hs, Hh, Hl.
  destruct (strip is_dash subbed) as [|c slug] eqn:Hstrip; [apply poster_is_slug|].
  split; [done|]. split; [done|]. split; [done|]. split.
  - intros Hdash. specialize (Hlh "-"%char (Hh _ Hdash)). by vm_compute in Hlh.
  - intros Hdash. specialize (Hl _ Hdash). by vm_compute in Hl.
Qed.

(** The list form of [_slugify] leaves a slug as it is. *)
Lemma slug_of_fixed l : is_slug l → slug_of l = l.
Proof.
  intros (Hne & Hchars & Hsingle & Hhead & Hlast).
  assert (Hends : ∀ c, head l = Some c ∨ last l = Some c → slug_char c = true).
  { intros c Hc.
    assert (Hin : c ∈ l).
    { destruct Hc as [Hc|Hc].
      - destruct l; [done|]. injection Hc as ->. apply list_elem_of_here.
      - apply last_Some in Hc as [l' ->]. apply elem_of_app. right.
        apply list_elem_of_here. }
    rewrite Forall_forall in Hchars. destruct (Hchars c Hin) as [?| ->]; [done|].
    by destruct Hc. }
  unfold slug_of.
  rewrite (strip_keeps is_space) by (intros c Hc; apply slug_char_not_space, Hends; auto).
  assert (Hlower : map lower_char l = l).
  { clear -Hchars. induction Hchars as [|c l Hc Hl IH]; [done|]. simpl.
    rewrite IH. by destruct Hc as [Hc| ->]; [rewrite slug_char_lower|]. }
  rewrite Hlower, sub_runs_keeps by done.
  rewrite strip_keeps.
  - by destruct l.
  - intros c Hc. apply is_dash_false. by intros ->.
  - intros c Hc. apply is_dash_false. by intros ->.
Qed.

(** X20.  [_slugify] always returns a usable directory name: not empty,
    made of the characters a-z and 0-9 and of dashes only, with no two
    dashes in a row and no dash at either end. *)
Theorem slugify_gives_slug (text : string) :
  is_slug (String.list_ascii_of_string (_slugify text)).
Proof.
  unfold _slugify. rewrite String.list_ascii_of_string_of_list_ascii.
  apply slug_of_is_slug.
Qed.

(** X21.  [_slugify] is idempotent: it returns its own results unchanged. *)
Theorem slugify_idempotent (text : string) :
  _slugify (_slugify text) = _slugify text.
Proof.
  unfold _slugify. rewrite String.list_ascii_of_string_of_list_ascii.
  f_equal. apply slug_of_fixed, slug_of_is_slug.
Qed.

(** X22.  Text that is a slug already (not empty, only a-z, 0-9 and single
    dashes, no dash at either end) is returned by [_slugify] as it is. *)
Theorem slugify_keeps_slugs (text : string) :
  is_slug (String.list_ascii_of_string text) → _slugify text = text.
Proof.
  intros Hslug. unfold _slugify. rewrite slug_of_fixed by done.
  apply String.string_of_list_ascii_of_string.
Qed.

Lemma slugify_keeps_the_matrix : _slugify "the-matrix-1999" = "the-matrix-1999".
Proof.
  apply (slugify_keeps_slugs "the-matrix-1999").
  split; [done|]. split; [by repeat constructor; vm_compute; auto|].
  split; [|done]. simpl. intuition congruence.
Defined.

End Slugs.
Section RepoRoot.
Import POC.
Implicit Types (file_exists : list string → bool) (dir start_dir p : list string).

Lemma prefix_snoc_cases p dir (name : string) :
  p `prefix_of` dir ++ [name] → p = dir ++ [name] ∨ p `prefix_of` dir.
Proof.
  intros [k Hk]. destruct (decide (k = [])) as [->|Hne].
  - left. by rewrite app_nil_r in Hk.
  - right. destruct (exists_last Hne) as (k' & x & ->).
    rewrite app_assoc in Hk. apply app_inj_tail in Hk as [-> _].
    by exists k'.
Qed.

Lemma walk_up_found file_exists rev_cur root :
  walk_up file_exists rev_cur = Some root →
  root `prefix_of` reverse rev_cur
  ∧ is_repo_root file_exists root = true
  ∧ ∀ p, p `prefix_of` reverse rev_cur → is_repo_root file_exists p = true →
         p `prefix_of` root.
Proof.
  induction rev_cur as [|name rev_parent IH]; cbn [walk_up].
  - destruct (is_repo_root file_exists (reverse [])) eqn:Hroot; [|done].
    intros [= <-]. by repeat split.
  - destruct (is_repo_root file_exists (reverse (name :: rev_parent))) eqn:Hroot.
    + intros [= <-]. by repeat split.
    + intros Hwalk. destruct (IH Hwalk) as (Hprefix & Hok & Hnearest).
      rewrite reverse_cons. split; [by apply prefix_app_r|]. split; [done|].
      intros p Hp Hpok. apply prefix_snoc_cases in Hp as [-> | Hp].
      * rewrite reverse_cons in Hroot. congruence.
      * by apply Hnearest.
Qed.

Lemma walk_up_not_found file_exists rev_cur :
  walk_up file_exists rev_cur = None →
  ∀ p, p `prefix_of` reverse rev_cur → is_repo_root file_exists p = false.
Proof.
  induction rev_cur as [|name rev_parent IH]; cbn [walk_up].
  - destruct (is_repo_root file_exists (reverse [])) eqn:Hroot; [done|].
    intros _ p Hp. apply prefix_nil_inv in Hp as ->. exact Hroot.
  - destruct (is_repo_root file_exists (reverse (name :: rev_parent))) eqn:Hroot;
      [done|].
    intros Hwalk p Hp. rewrite reverse_cons in Hp, Hroot.
    apply prefix_snoc_cases in Hp as [-> | Hp]; [done | by apply IH].
Qed.

(** X23.  [_find_repo_root] returns the nearest directory, among the start
    directory and its ancestors, that holds both package.json and
    server.js; when there is none, it returns the start directory. *)
Theorem find_repo_root_nearest file_exists start_dir :
  let root := _find_repo_root file_exists start_dir in
  root `prefix_of` start_dir
  ∧ (∀ p, p `prefix_of` start_dir → is_repo_root file_exists p = true →
          is_repo_root file_exists root = true ∧ p `prefix_of` root)
  ∧ ((∀ p, p `prefix_of` start_dir → is_repo_root file_exists p = false) →
     root = start_dir).
Proof.
  unfold _find_repo_root.
  destruct (walk_up file_exists (reverse start_dir)) as [root|] eqn:Hwalk; cbn zeta.
  - apply walk_up_found in Hwalk as (Hprefix & Hok & Hnearest).
    rewrite reverse_involutive in Hprefix, Hnearest.
    split; [done|]. split; [by auto|].
    intros Hnone. rewrite Hnone in Hok; done.
  - pose proof (walk_up_not_found _ _ Hwalk) as Hnone.
    rewrite reverse_involutive in Hnone.
    split; [done|]. split; [|done].
    intros p Hp Hpok. rewrite Hnone in Hpok; done.
Qed.

End RepoRoot.
Section ModelChoice.
Import POC.
Local Open Scope Z_scope.

Lemma model_map_unknown (model_key : string) :
  model_key ∉ ["midas_small"; "dpt_hybrid"; "dpt_large"] →
  model_map !! model_key = None.
Proof.
  intros Hkey. unfold model_map.
  rewrite !lookup_insert_ne; [done|..]; intros <-; apply Hkey; set_solver.
Qed.

Lemma model_map_known (model_key : string) :
  model_key ∈ ["midas_small"; "dpt_hybrid"; "dpt_large"] →
  is_Some (model_map !! model_key).
Proof.
  intros Hkey. unfold model_map.
  rewrite !elem_of_cons, elem_of_nil in Hkey.
  destruct Hkey as [->|[->|[->|[]]]].
  - by rewrite lookup_insert_eq.
  - rewrite lookup_insert_ne by done. by rewrite lookup_insert_eq.
  - rewrite !lookup_insert_ne by done. by rewrite lookup_insert_eq.
Qed.

(** X24.  [load_model] of the POC raises ValueError exactly for a model key
    other than midas_small, dpt_hybrid and dpt_large, whatever the hub
    would answer, and then leaves the generator as it was. *)
Theorem load_model_unknown_key (hub_fetch : string → bool → option predictor)
    (model_key : string) (w : world) :
  ((load_model hub_fetch model_key w).2 = Raise ValueError
   ↔ model_key ∉ ["midas_small"; "dpt_hybrid"; "dpt_large"])
  ∧ (model_key ∉ ["midas_small"; "dpt_hybrid"; "dpt_large"] →
     (load_model hub_fetch model_key w).1 = w).
Proof.
  unfold load_model.
  destruct (decide (model_key ∈ ["midas_small"; "dpt_hybrid"; "dpt_large"]))
    as [Hin|Hout].
  - destruct (model_map_known _ Hin) as [selected ->].
    split; [|done].
    destruct (hub_fetch selected.1 (bool_decide (selected.2 = "small"))); simpl;
      split; done.
  - rewrite (model_map_unknown _ Hout). done.
Qed.



End ModelChoice.
